(** * servicename_finder: the chunked scan of a Suricata rule file

    A shallow embedding of [src/servicename_finder.py].  Python strings are
    sequences of Unicode code points, integers are unbounded, and the
    effects of the program (log records, file writes, the process exit
    status) are kept as explicit event lists and results. *)

From Stdlib Require Import Strings.String Strings.Ascii.
From Stdlib Require Import List ZArith NArith Lia Bool Permutation.
Import ListNotations.


(** ** Python strings *)

(** A character is a Unicode code point; a [str] is a sequence of them. *)
Definition char := N.
Definition str := list char.

(** Text of this development, written as an ASCII literal. *)
Definition of_string (s : string) : str :=
  map N_of_ascii (list_ascii_of_string s).

(** The double quote, U+0022, and the line feed, U+000A. *)
Definition dq : char := 34%N.
Definition lf : char := 10%N.

(** [not s] for a string: true exactly for the empty string. *)
Definition py_not (s : str) : bool :=
  match s with [] => true | _ :: _ => false end.

Fixpoint startswith (prefix s : str) : bool :=
  match prefix, s with
  | [], _ => true
  | p :: prefix', c :: s' => N.eqb p c && startswith prefix' s'
  | _ :: _, [] => false
  end.

(** [needle in hay]: the substring test of Python's [in] on strings. *)
Fixpoint contains (needle hay : str) : bool :=
  startswith needle hay ||
  match hay with
  | [] => false
  | _ :: hay' => contains needle hay'
  end.

(** [str.isspace] on one code point: the white space of the Unicode
    character database, which [str.rstrip()] removes. *)
Definition isspace (c : char) : bool :=
  ((9 <=? c) && (c <=? 13) || (28 <=? c) && (c <=? 32) ||
   (c =? 133) || (c =? 160) || (c =? 5760) ||
   (8192 <=? c) && (c <=? 8202) || (c =? 8232) || (c =? 8233) ||
   (c =? 8239) || (c =? 8287) || (c =? 12288))%N.

Fixpoint dropwhile (p : char -> bool) (s : str) : str :=
  match s with
  | [] => []
  | c :: s' => if p c then dropwhile p s' else s
  end.

(** [s.rstrip()] with no argument: trailing white space removed. *)
Definition rstrip (s : str) : str := rev (dropwhile isspace (rev s)).

(** [l[start:stop]] with Python's rules: a negative index counts from the
    end, and both indices are clamped to the sequence. *)
Definition slice_index {A} (l : list A) (i : Z) : Z :=
  let len := Z.of_nat (length l) in
  if (i <? 0)%Z then Z.max 0 (i + len) else Z.min i len.

Definition slice {A} (l : list A) (start stop : Z) : list A :=
  let a := slice_index l start in
  let b := slice_index l stop in
  firstn (Z.to_nat (b - a)) (skipn (Z.to_nat a) l).

(** ** The part of [re] that the program uses *)

Module Re.

(** One-character tests of a compiled pattern. *)
Inductive charop :=
| LITERAL (c : char)
| NOT_LITERAL (c : char).

(** The compiled pattern is a flat program: single characters, the greedy
    repetition of a single character test ([x+] is [REPEAT_ONE 1 x]), and
    the marks that delimit capturing groups (group [g] lies between marks
    [2g-2] and [2g-1]). *)
Inductive op :=
| One (a : charop)
| REPEAT_ONE (min : nat) (a : charop)
| MARK (i : nat).

Record pattern := compile { code : list op; IGNORECASE : bool }.

Definition is_upper (c : char) : bool := ((65 <=? c) && (c <=? 90))%N.
Definition is_lower (c : char) : bool := ((97 <=? c) && (c <=? 122))%N.

(** The code points that an ASCII pattern character matches under
    IGNORECASE: both cases of a letter and, for i, k and s, the code points
    that Unicode folds to them (dotted capital I, dotless i, the Kelvin
    sign, long s).  A character that is not an ASCII letter matches only
    itself. *)
Definition caseless (p : char) : list char :=
  let lo := if is_upper p then (p + 32)%N else p in
  if is_lower lo then
    lo :: (lo - 32)%N ::
    (if (lo =? 105)%N then [304; 305]
     else if (lo =? 107)%N then [8490]
     else if (lo =? 115)%N then [383]
     else [])%N
  else [p].

Definition char_eq (ic : bool) (p c : char) : bool :=
  if ic then existsb (N.eqb c) (caseless p) else N.eqb p c.

Definition accepts (ic : bool) (a : charop) (c : char) : bool :=
  match a with
  | LITERAL p => char_eq ic p c
  | NOT_LITERAL p => negb (char_eq ic p c)
  end.

Definition marks := list (nat * nat).

Fixpoint mark (ms : marks) (i : nat) : option nat :=
  match ms with
  | [] => None
  | (j, pos) :: ms' => if Nat.eqb i j then Some pos else mark ms' i
  end.

(** Greedy repetition with backtracking: take the character if the test
    accepts it and try the longer match first; when that fails, stop here
    provided at least [min] characters were taken, and hand over to the
    rest of the program [k]. *)
Fixpoint repeat_one {R} (ic : bool) (a : charop) (min : nat)
    (k : str -> nat -> option R) (s : str) (pos count : nat) : option R :=
  let stop := if min <=? count then k s pos else None in
  match s with
  | [] => stop
  | c :: s' =>
      if accepts ic a c then
        match repeat_one ic a min k s' (S pos) (S count) with
        | Some r => Some r
        | None => stop
        end
      else stop
  end.

(** Run the program on the text [s] that starts at offset [pos]; the
    result is the end offset and the marks set on the way. *)
Fixpoint exec (ic : bool) (prog : list op) (s : str) (pos : nat) (ms : marks)
    : option (nat * marks) :=
  match prog with
  | [] => Some (pos, ms)
  | One a :: prog' =>
      match s with
      | [] => None
      | c :: s' => if accepts ic a c then exec ic prog' s' (S pos) ms else None
      end
  | REPEAT_ONE min a :: prog' =>
      repeat_one ic a min (fun s' pos' => exec ic prog' s' pos' ms) s pos 0
  | MARK i :: prog' => exec ic prog' s pos ((i, pos) :: ms)
  end.

(** A match object: where the match starts and ends, and its marks. *)
Record match_object := { m_start : nat; m_end : nat; m_marks : marks }.

Fixpoint search_from (p : pattern) (s : str) (pos : nat) : option match_object :=
  match exec (IGNORECASE p) (code p) s pos [] with
  | Some (e, ms) => Some {| m_start := pos; m_end := e; m_marks := ms |}
  | None =>
      match s with
      | [] => None
      | _ :: s' => search_from p s' (S pos)
      end
  end.

(** [p.search(line)]: the leftmost match. *)
Definition search (p : pattern) (line : str) : option match_object :=
  search_from p line 0.

(** [m.group(g)] for a group that took part in the match of [line]. *)
Definition group (line : str) (m : match_object) (g : nat) : option str :=
  match mark (m_marks m) (2 * g - 2), mark (m_marks m) (2 * g - 1) with
  | Some a, Some b => Some (slice line (Z.of_nat a) (Z.of_nat b))
  | _, _ => None
  end.

End Re.

Import Re.

(** The pattern compiled in [__init__] with [re.IGNORECASE]: the literal
    msg: and a double quote, then group 1, one or more characters other
    than a double quote, then a double quote. *)
Definition service_pattern : pattern :=
  compile
    (map One (map LITERAL (of_string "msg:")) ++
     [One (LITERAL dq); MARK 0; REPEAT_ONE 1 (NOT_LITERAL dq); MARK 1;
      One (LITERAL dq)])
    true.

(** The pattern extractor of [_find_matches]: [search] and then [group(1)]. *)
Definition extract (line : str) : option str :=
  match search service_pattern line with
  | None => None
  | Some m => group line m 1
  end.

Definition quoted (s : str) : str := dq :: s ++ [dq].

(** ** Exceptions, log records and events *)

Inductive exn :=
| SystemExit (code : Z)
| OSError
| FileNotFoundError
| UnicodeDecodeError
| ZeroDivisionError
| ValueError
| AttributeError.

(** The classes that [except Exception] catches: all but [SystemExit]. *)
Definition is_Exception (e : exn) : bool :=
  match e with SystemExit _ => false | _ => true end.

Inductive result (A : Type) :=
| Return (a : A)
| Raise (e : exn).
Arguments Return {A} a.
Arguments Raise {A} e.

Inductive level := INFO | ERROR.

(** [self.logger], named after the class, and the root logger behind the
    module-level [logging.error]. *)
Inductive logger := Searcher | Root.

(** The formatted messages, with the fields of each f-string kept as data. *)
Inductive message :=
| NoServiceName (service_name : str)
| FileNotFound (input_file : str)
| IOErrorReading (input_file : str)
| Starting (service_name input_file : str) (num_threads : Z)
| Text (line : str)
| ErrorInThread (e : exn)
| TotalMatches (total_matches : nat) (service_name : str)
| UnexpectedError (e : exn).

Inductive event :=
| Log (lg : logger) (lv : level) (m : message)
| ReadLines (path : str)
| OpenAppend (path : str)
| Write (path : str) (data : str)
| Close (path : str).

(** A text file opened for writing.  Whether the next [write] succeeds is
    the operating system's business: [pending k] says whether the write
    after [k] further ones goes through. *)
Record TextIO := { name : str; pending : nat -> bool }.

Definition write (f : TextIO) : result TextIO :=
  if pending f 0 then Return {| name := name f; pending := fun k => pending f (S k) |}
  else Raise OSError.

(** What the operating system answers to one task's [open], to its writes
    and to the closing of its file. *)
Record file_io := { open_ok : bool; write_ok : nat -> bool; close_ok : bool }.

(** The world around one run: the outcome of reading the input file, and
    the file behaviour met by each submitted task, by submission index. *)
Record environment := {
  readlines : str -> result (list str);
  task_io : nat -> file_io
}.

Record SuricataRuleSearcher := {
  input_file : str;
  output_file : option str;
  service_name : str;
  num_threads : Z
}.

(** [not self.output_file]: no path, or the empty path. *)
Definition no_output_file (self : SuricataRuleSearcher) : bool :=
  match output_file self with
  | None => true
  | Some path => py_not path
  end.

Definition emit {A} (e : event) (r : result A * list event) : result A * list event :=
  (fst r, e :: snd r).

Definition range (n : Z) : list Z := map Z.of_nat (seq 0 (Z.to_nat n)).

(** The loop of [_split_lines_evenly]; [chunks] and [start] are its
    variables. *)
Fixpoint split_loop (lines : list str) (avg remainder : Z) (indices : list Z)
    (start : Z) (chunks : list (list str)) : list (list str) :=
  match indices with
  | [] => chunks
  | i :: indices' =>
      let stop := (start + avg + (if i <? remainder then 1 else 0))%Z in
      split_loop lines avg remainder indices' stop (chunks ++ [slice lines start stop])
  end.

Definition _split_lines_evenly (lines : list str) (num_chunks : Z)
    : result (list (list str)) :=
  if (num_chunks =? 0)%Z then Raise ZeroDivisionError
  else
    let avg := (Z.of_nat (length lines) / num_chunks)%Z in
    let remainder := (Z.of_nat (length lines) mod num_chunks)%Z in
    Return (split_loop lines avg remainder (range num_chunks) 0 []).

Definition load_file (env : environment) (self : SuricataRuleSearcher)
    : result (list str) * list event :=
  emit (ReadLines (input_file self))
    match readlines env (input_file self) with
    | Return lines => (Return lines, [])
    | Raise FileNotFoundError =>
        (Raise (SystemExit 1), [Log Searcher ERROR (FileNotFound (input_file self))])
    | Raise OSError =>
        (Raise (SystemExit 1), [Log Searcher ERROR (IOErrorReading (input_file self))])
    | Raise e => (Raise e, [])
    end.

Definition _validate_service_name (self : SuricataRuleSearcher) : bool * list event :=
  if py_not (service_name self)
  then (false, [Log Searcher ERROR (NoServiceName (service_name self))])
  else (true, []).

Section Scanner.

(** [str.lower], Python's lowering of a whole string by the Unicode
    character database, is taken as given. *)
Variable lower : str -> str.

(** The loop of [_find_matches]; [matched_lines] is its counter and the
    file object carries its own state. *)
Fixpoint find_loop (service_name_lower : str) (output_file : option TextIO)
    (chunk : list str) (matched_lines : nat) : result nat * list event :=
  match chunk with
  | [] => (Return matched_lines, [])
  | line :: chunk' =>
      match search service_pattern line with
      | None => find_loop service_name_lower output_file chunk' matched_lines
      | Some m =>
          let msg_content := match group line m 1 with Some c => c | None => [] end in
          if py_not msg_content ||
             negb (contains service_name_lower (lower msg_content))
          then find_loop service_name_lower output_file chunk' matched_lines
          else
            let matched_lines := S matched_lines in
            match output_file with
            | Some f =>
                match write f with
                | Return f' =>
                    emit (Write (name f) line)
                      (find_loop service_name_lower (Some f') chunk' matched_lines)
                | Raise e => (Raise e, [])
                end
            | None =>
                emit (Log Searcher INFO (Text (rstrip line)))
                  (find_loop service_name_lower None chunk' matched_lines)
            end
      end
  end.

Definition _find_matches (self : SuricataRuleSearcher) (chunk : list str)
    (output_file : option TextIO) : result nat * list event :=
  if py_not (service_name self) then (Return 0, [])
  else find_loop (lower (service_name self)) output_file chunk 0.

(** The [with open(...)] block: the file is closed on the way out, also
    when the body raised. *)
Definition _search_for_service_in_chunk (self : SuricataRuleSearcher)
    (io : file_io) (chunk : list str) : result nat * list event :=
  if no_output_file self then _find_matches self chunk None
  else
    let path := match output_file self with Some p => p | None => [] end in
    if open_ok io then
      let out := _find_matches self chunk
                   (Some {| name := path; pending := write_ok io |}) in
      match fst out with
      | Return n =>
          if close_ok io
          then (Return n, OpenAppend path :: snd out ++ [Close path])
          else (Raise OSError, OpenAppend path :: snd out)
      | Raise e => (Raise e, OpenAppend path :: snd out ++ [Close path])
      end
    else (Raise OSError, []).

(** A submitted task: what [future.result()] gives, and the events of the
    worker thread that ran it. *)
Definition future := (result nat * list event)%type.

(** The dispatch loop: one task per non-empty chunk. *)
Fixpoint submit_loop (env : environment) (self : SuricataRuleSearcher)
    (chunks : list (list str)) (futures : list future) : list future :=
  match chunks with
  | [] => futures
  | chunk :: chunks' =>
      match chunk with
      | [] => submit_loop env self chunks' futures
      | _ :: _ =>
          submit_loop env self chunks'
            (futures ++
             [_search_for_service_in_chunk self (task_io env (length futures)) chunk])
      end
  end.

(** The collecting loop over the completed futures. *)
Fixpoint collect_loop (completed : list (result nat)) (total_matches : nat)
    : result nat * list event :=
  match completed with
  | [] => (Return total_matches, [])
  | Return matches :: completed' => collect_loop completed' (total_matches + matches)
  | Raise e :: completed' =>
      if is_Exception e
      then emit (Log Root ERROR (ErrorInThread e)) (collect_loop completed' total_matches)
      else (Raise e, [])
  end.

(** One run: how [process_file_in_chunks] ends, the events of the main
    thread in order, and the events of each worker task in the order of
    submission.  How the threads interleave is left open. *)
Record run := {
  outcome : result unit;
  main_thread : list event;
  tasks : list (list event)
}.

(** [concurrent.futures.as_completed]: the futures in the order in which
    they finish, which the thread pool decides. *)
Variable as_completed : list (result nat) -> list (result nat).

Definition process_file_in_chunks (env : environment) (self : SuricataRuleSearcher)
    : run :=
  let v1 := _validate_service_name self in
  if negb (fst v1) then
    {| outcome := Raise (SystemExit 1); main_thread := snd v1; tasks := [] |}
  else
  let v2 := _validate_service_name self in
  if negb (fst v2) then
    {| outcome := Raise AttributeError; main_thread := snd v1 ++ snd v2; tasks := [] |}
  else
  let started :=
    snd v1 ++ snd v2 ++
    [Log Searcher INFO
       (Starting (service_name self) (input_file self) (num_threads self))] in
  let loaded := load_file env self in
  match fst loaded with
  | Raise e =>
      {| outcome := Raise e; main_thread := started ++ snd loaded; tasks := [] |}
  | Return lines =>
      match _split_lines_evenly lines (num_threads self) with
      | Raise e =>
          {| outcome := Raise e; main_thread := started ++ snd loaded; tasks := [] |}
      | Return chunks =>
          if (num_threads self <=? 0)%Z then
            {| outcome := Raise ValueError;
               main_thread := started ++ snd loaded; tasks := [] |}
          else
            let futures := submit_loop env self chunks [] in
            let collected := collect_loop (as_completed (map fst futures)) 0 in
            match fst collected with
            | Raise e =>
                {| outcome := Raise e;
                   main_thread := started ++ snd loaded ++ snd collected;
                   tasks := map snd futures |}
            | Return total_matches =>
                {| outcome := Return tt;
                   main_thread :=
                     started ++ snd loaded ++ snd collected ++
                     [Log Searcher INFO (TotalMatches total_matches (service_name self))];
                   tasks := map snd futures |}
            end
      end
  end.

(** [main] after argument parsing: the exit status of the process and
    the run. *)
Definition main (env : environment) (self : SuricataRuleSearcher) : Z * run :=
  let r := process_file_in_chunks env self in
  match outcome r with
  | Return _ => (0%Z, r)
  | Raise (SystemExit code) => (code, r)
  | Raise e =>
      (1%Z, {| outcome := outcome r;
               main_thread := main_thread r ++ [Log Root ERROR (UnexpectedError e)];
               tasks := tasks r |})
  end.

End Scanner.

(** [str.lower] on ASCII text, where it maps A-Z to a-z and nothing else;
    used to run the program on concrete rule lines. *)
Definition ascii_lower (s : str) : str :=
  map (fun c => if is_upper c then (c + 32)%N else c) s.

(** ** Concrete rule files *)

(** A rule line with the given msg field, ended by a line feed. *)
Definition rule (msg : str) : str :=
  of_string "alert tcp any any -> any any (msg:" ++ quoted msg ++ of_string ";)" ++ [lf].

Definition demo_lines : list str :=
  [rule (of_string "ET POLICY SSH Service");
   rule (of_string "Generic HTTP request");
   rule (of_string "ssh SERVICE login attempt")].

Definition demo_searcher (service : str) (out : option str) (threads : Z)
    : SuricataRuleSearcher :=
  {| input_file := of_string "rules";
     output_file := out;
     service_name := service;
     num_threads := threads |}.

Definition sound_io : file_io :=
  {| open_ok := true; write_ok := fun _ => true; close_ok := true |}.

(** A file that cannot be opened. *)
Definition locked_io : file_io :=
  {| open_ok := false; write_ok := fun _ => true; close_ok := true |}.

Definition demo_env : environment :=
  {| readlines := fun _ => Return demo_lines; task_io := fun _ => sound_io |}.

(** The same rule file when the first task cannot open the output file. *)
Definition faulty_env : environment :=
  {| readlines := fun _ => Return demo_lines;
     task_io := fun i => match i with 0 => locked_io | _ => sound_io end |}.

(** The search for service written to the file out, with two threads. *)
Definition file_searcher : SuricataRuleSearcher :=
  demo_searcher (of_string "service") (Some (of_string "out")) 2.

(** A matching rule line with a blank before its line feed. *)
Definition blank_ended_line : str :=
  of_string "msg:" ++ quoted (of_string "ssh") ++ of_string " " ++ [lf].

(** A line with an empty msg field followed by a filled one. *)
Definition two_field_line : str :=
  of_string "msg:" ++ quoted [] ++ of_string " msg:" ++ quoted (of_string "ssh").

(** ** The statements of the specification *)

(** The field name msg: compared without regard to case, as IGNORECASE
    compares characters (the long s counts as an s). *)
Definition is_msg_token (tok : str) : Prop :=
  Forall2 (fun p c => char_eq true p c = true) (of_string "msg:") tok.

(** The pattern of the specification occurs in [line] at offset [i] with
    the captured text [content]: msg: in any case, a double quote, the
    content, which has no double quote in it, and the next double quote. *)
Definition occurrence (line : str) (i : nat) (content : str) : Prop :=
  exists pre tok post,
    line = pre ++ tok ++ quoted content ++ post /\
    length pre = i /\ is_msg_token tok /\ ~ In dq content.

(** The extractor as the specification words it: the capture of the first
    occurrence, and none when there is no occurrence. *)
Definition extractor_as_specified (line : str) (r : option str) : Prop :=
  match r with
  | Some content =>
      exists i, occurrence line i content /\
                forall j c, j < i -> ~ occurrence line j c
  | None => forall i c, ~ occurrence line i c
  end.

(** The same with occurrences whose quotes enclose nothing left out. *)
Definition filled_occurrence (line : str) (i : nat) (content : str) : Prop :=
  occurrence line i content /\ content <> [].

Definition extractor_of_filled_fields (line : str) (r : option str) : Prop :=
  match r with
  | Some content =>
      exists i, filled_occurrence line i content /\
                forall j c, j < i -> ~ filled_occurrence line j c
  | None => forall i c, ~ filled_occurrence line i c
  end.

(** [needle] occurs somewhere inside [hay]. *)
Definition substring (needle hay : str) : Prop :=
  exists pre post, hay = pre ++ needle ++ post.

(** A line without its trailing line terminator, a line feed after
    [readlines]; the rest of the line is kept as it is. *)
Definition strip_terminator (line : str) : str :=
  match rev line with
  | c :: r => if N.eqb c lf then rev r else line
  | [] => line
  end.

(** ** The pattern *)

(** The longest run of characters that a test accepts, and what follows. *)
Fixpoint span (ic : bool) (a : charop) (s : str) : str * str :=
  match s with
  | [] => ([], [])
  | c :: s' =>
      if accepts ic a c
      then (c :: fst (span ic a s'), snd (span ic a s'))
      else ([], s)
  end.

(** A line that begins with msg: in any case and a double quote: what
    follows the quote. *)
Definition msg_open (s : str) : option str :=
  match s with
  | c1 :: c2 :: c3 :: c4 :: c5 :: rest =>
      if char_eq true 109%N c1 && char_eq true 115%N c2 && char_eq true 103%N c3 &&
         char_eq true 58%N c4 && N.eqb c5 dq
      then Some rest else None
  | _ => None
  end.

(** The content of the filled field that begins at the head of [s]. *)
Definition field_at (s : str) : option str :=
  match msg_open s with
  | Some rest =>
      match fst (span true (NOT_LITERAL dq) rest), snd (span true (NOT_LITERAL dq) rest) with
      | c :: run, _ :: _ => Some (c :: run)
      | _, _ => None
      end
  | None => None
  end.

Fixpoint first_field (s : str) : option str :=
  match field_at s with
  | Some c => Some c
  | None =>
      match s with
      | [] => None
      | _ :: s' => first_field s'
      end
  end.

(** A msg field opens in [line] at offset [j]: msg: in any case and a
    double quote. *)
Definition opens_field (line : str) (j : nat) : Prop :=
  exists pre tok rest,
    line = pre ++ tok ++ dq :: rest /\ length pre = j /\ is_msg_token tok.

(** [s] does not end in white space. *)
Definition no_trailing_space (s : str) : Prop :=
  forall t x, s = t ++ [x] -> isspace x = false.

(** ** The scanner *)

(** The test that [_find_matches] applies to a line, in the words of the
    specification: the extractor yields a value and the lowered service
    name is found in the lowered value. *)
Definition counted (lower : str -> str) (service_name line : str) : bool :=
  match extract line with
  | Some c => contains (lower service_name) (lower c)
  | None => false
  end.

(** What the sink receives for a matched line. *)
Definition forwarded (output_file : option TextIO) (line : str) : event :=
  match output_file with
  | Some f => Write (name f) line
  | None => Log Searcher INFO (Text (rstrip line))
  end.

(** The first [n] writes to the file, if there is one, succeed. *)
Definition writable (output_file : option TextIO) (n : nat) : Prop :=
  match output_file with
  | Some f => forall k, k < n -> pending f k = true
  | None => True
  end.

(** The count that a future contributes to the total. *)
Definition count_of (r : result nat) : nat :=
  match r with
  | Return n => n
  | Raise _ => 0
  end.

(** The exceptions among the results, in order. *)
Fixpoint raised (rs : list (result nat)) : list exn :=
  match rs with
  | [] => []
  | Return _ :: rs' => raised rs'
  | Raise e :: rs' => e :: raised rs'
  end.

(** [if chunk:] for a list. *)
Definition nonempty {A} (l : list A) : bool :=
  match l with [] => false | _ :: _ => true end.

(** A task that meets no input/output error. *)
Definition sound (io : file_io) : Prop :=
  open_ok io = true /\ close_ok io = true /\ forall k, write_ok io k = true.

(** The error records that the collecting loop writes. *)
Definition thread_errors (es : list exn) : list event :=
  map (fun e => Log Root ERROR (ErrorInThread e)) es.

(** The futures of a run over [chunks]: task [i] runs the [i]-th chunk
    that is not empty, against the file behaviour [task_io env i]. *)
Definition work_futures (lower : str -> str) (env : environment)
    (self : SuricataRuleSearcher) (chunks : list (list str))
    : list (result nat * list event) :=
  map (fun ic => _search_for_service_in_chunk lower self (task_io env (fst ic)) (snd ic))
    (combine (seq 0 (length (filter nonempty chunks))) (filter nonempty chunks)).

(** The same searcher configured with another number of threads. *)
Definition with_threads (self : SuricataRuleSearcher) (n : Z) : SuricataRuleSearcher :=
  {| input_file := input_file self;
     output_file := output_file self;
     service_name := service_name self;
     num_threads := n |}.

(** ** The partition *)

(** Where chunk [i] starts: [i] chunks of [avg] lines and one more line for
    each of the first [remainder] chunks. *)
Definition chunk_start (avg remainder i : Z) : Z :=
  (i * avg + Z.min i remainder)%Z.

(** ** Observations of a run *)

(** The lines that the events write to a file, in order. *)
Fixpoint written (evs : list event) : list str :=
  match evs with
  | [] => []
  | Write _ data :: evs' => data :: written evs'
  | _ :: evs' => written evs'
  end.

(** The texts that the events log at level INFO on the class logger. *)
Fixpoint logged (evs : list event) : list str :=
  match evs with
  | [] => []
  | Log Searcher INFO (Text t) :: evs' => t :: logged evs'
  | _ :: evs' => logged evs'
  end.

(** An event of the console variant: a line logged on the class logger. *)
Definition console_event (e : event) : Prop :=
  exists t, e = Log Searcher INFO (Text t).

(** An event of the file variant on [path]. *)
Definition file_event (path : str) (e : event) : Prop :=
  e = OpenAppend path \/ (exists data, e = Write path data) \/ e = Close path.

(** The same searcher with another output argument. *)
Definition with_output (self : SuricataRuleSearcher) (out : option str)
    : SuricataRuleSearcher :=
  {| input_file := input_file self;
     output_file := out;
     service_name := service_name self;
     num_threads := num_threads self |}.

(** The events hold the record of a total. *)
Definition reports_total (evs : list event) : Prop :=
  exists total target, In (Log Searcher INFO (TotalMatches total target)) evs.


(** ** The part of [logging] that the program uses *)

Fixpoint str_eqb (a b : str) : bool :=
  match a, b with
  | [], [] => true
  | x :: a', y :: b' => N.eqb x y && str_eqb a' b'
  | _, _ => false
  end.

Module Logging.

(** The numeric levels. *)
Definition NOTSET : Z := 0.
Definition WARNING : Z := 30.

Definition levelno (lv : level) : Z :=
  match lv with
  | INFO => 20
  | ERROR => 40
  end.

(** The formatters met in a run: the one that [LoggerManager] builds (time,
    level name, message), the one of [basicConfig] (level name, logger
    name, message), and the bare message of the handler of last resort. *)
Inductive format := ClassFormat | BASIC_FORMAT | LastResort.

(** A stream handler on standard error. *)
Record Handler := { h_level : Z; h_format : format }.

Record Logger := { lvl : Z; handlers : list Handler; propagate : bool }.

(** A logger is the root logger or a logger kept by name.  The run creates
    no logger whose name extends the name of another by a dot, so the
    parent of every named logger is the root logger. *)
Inductive ref := RootLogger | Named (name : str).

Record state := { root : Logger; loggerDict : list (str * Logger) }.

(** The module when the interpreter starts: the root logger at WARNING
    without a handler, and no other logger that has one. *)
Definition initial : state :=
  {| root := {| lvl := WARNING; handlers := []; propagate := true |};
     loggerDict := [] |}.

Definition fresh : Logger := {| lvl := NOTSET; handlers := []; propagate := true |}.

Fixpoint find (name : str) (d : list (str * Logger)) : option Logger :=
  match d with
  | [] => None
  | (k, v) :: d' => if str_eqb k name then Some v else find name d'
  end.

Fixpoint store (name : str) (v : Logger) (d : list (str * Logger))
    : list (str * Logger) :=
  match d with
  | [] => [(name, v)]
  | (k, w) :: d' => if str_eqb k name then (k, v) :: d' else (k, w) :: store name v d'
  end.

Definition get (r : ref) (st : state) : Logger :=
  match r with
  | RootLogger => root st
  | Named name =>
      match find name (loggerDict st) with
      | Some l => l
      | None => fresh
      end
  end.

Definition set (r : ref) (l : Logger) (st : state) : state :=
  match r with
  | RootLogger => {| root := l; loggerDict := loggerDict st |}
  | Named name => {| root := root st; loggerDict := store name l (loggerDict st) |}
  end.

(** [logging.getLogger(name)]: the root logger for no name and for the name
    root, otherwise the logger of that name, created at the first call. *)
Definition getLogger (name : str) (st : state) : ref * state :=
  if py_not name || str_eqb name (of_string "root") then (RootLogger, st)
  else
    (Named name,
     match find name (loggerDict st) with
     | Some _ => st
     | None => set (Named name) fresh st
     end).

Definition setLevel (r : ref) (level : Z) (st : state) : state :=
  set r {| lvl := level; handlers := handlers (get r st); propagate := propagate (get r st) |}
    st.

(** A handler object is new at each construction, so it is never found in
    the list yet and is appended. *)
Definition addHandler (r : ref) (h : Handler) (st : state) : state :=
  set r {| lvl := lvl (get r st); handlers := handlers (get r st) ++ [h];
           propagate := propagate (get r st) |}
    st.

(** [Logger.hasHandlers]: a handler on this logger or, as long as records
    propagate, on the root logger above it. *)
Definition hasHandlers (r : ref) (st : state) : bool :=
  if nonempty (handlers (get r st)) then true
  else if negb (propagate (get r st)) then false
  else
    match r with
    | RootLogger => false
    | Named _ => nonempty (handlers (root st))
    end.

Definition getEffectiveLevel (r : ref) (st : state) : Z :=
  if negb (lvl (get r st) =? 0)%Z then lvl (get r st)
  else
    match r with
    | RootLogger => NOTSET
    | Named _ => if negb (lvl (root st) =? 0)%Z then lvl (root st) else NOTSET
    end.

Definition isEnabledFor (r : ref) (lv : level) (st : state) : bool :=
  (getEffectiveLevel r st <=? levelno lv)%Z.

(** A line on standard error: the format of the handler that wrote it and
    the record (the logger that made it, its level and its message). *)
Record emission := Emitted { by_format : format; from : ref; at_level : level; text : message }.

(** The handlers that [Logger.callHandlers] visits: those of the logger
    and, if it propagates, those of the root logger. *)
Definition visited (r : ref) (st : state) : list Handler :=
  handlers (get r st) ++
  match r with
  | RootLogger => []
  | Named _ => if propagate (get r st) then handlers (root st) else []
  end.

Definition callHandlers (r : ref) (lv : level) (m : message) (st : state)
    : list emission :=
  match visited r st with
  | [] => if (WARNING <=? levelno lv)%Z then [Emitted LastResort r lv m] else []
  | hs =>
      map (fun h => Emitted (h_format h) r lv m)
        (filter (fun h => (h_level h <=? levelno lv)%Z) hs)
  end.

(** [logger.info(m)] and [logger.error(m)]. *)
Definition log (r : ref) (lv : level) (m : message) (st : state) : list emission :=
  if isEnabledFor r lv st then callHandlers r lv m st else [].

(** [logging.basicConfig()] without arguments. *)
Definition basicConfig (st : state) : state :=
  match handlers (root st) with
  | [] => addHandler RootLogger {| h_level := NOTSET; h_format := BASIC_FORMAT |} st
  | _ :: _ => st
  end.

(** The module-level [logging.error(m)] (and [logging.info(m)]): the root
    logger is configured first if it has no handler. *)
Definition module_log (lv : level) (m : message) (st : state) : state * list emission :=
  let st' := match handlers (root st) with [] => basicConfig st | _ :: _ => st end in
  (st', log RootLogger lv m st').

End Logging.

(** [LoggerManager(name, level)]: the logger it holds and the module
    afterwards. *)
Definition LoggerManager (name : str) (level : Z) (st : Logging.state)
    : Logging.ref * Logging.state :=
  let got := Logging.getLogger name st in
  let st1 := Logging.setLevel (fst got) level (snd got) in
  if negb (Logging.hasHandlers (fst got) st1)
  then (fst got,
        Logging.addHandler (fst got)
          {| Logging.h_level := Logging.NOTSET; Logging.h_format := Logging.ClassFormat |}
          st1)
  else (fst got, st1).

(** [get_logger]. *)
Definition get_logger (manager : Logging.ref * Logging.state) : Logging.ref :=
  fst manager.

(** The logger that [SuricataRuleSearcher.__init__] makes, under the name
    of the class and at the default level INFO, and the module after it. *)
Definition searcher_logging (st : Logging.state) : Logging.ref * Logging.state :=
  LoggerManager (of_string "SuricataRuleSearcher") (Logging.levelno INFO) st.

(** What the records of a thread put on standard error, in order: a record
    of the class logger goes through [self.logger], a record of the root
    logger through the module-level function. *)
Fixpoint console (self_logger : Logging.ref) (st : Logging.state) (evs : list event)
    : Logging.state * list Logging.emission :=
  match evs with
  | [] => (st, [])
  | Log Searcher lv m :: evs' =>
      let rest := console self_logger st evs' in
      (fst rest, Logging.log self_logger lv m st ++ snd rest)
  | Log Root lv m :: evs' =>
      let now := Logging.module_log lv m st in
      let rest := console self_logger (fst now) evs' in
      (fst rest, snd now ++ snd rest)
  | _ :: evs' => console self_logger st evs'
  end.

(** The class logger and the module when [process_file_in_chunks] starts
    in a process that has not configured logging otherwise. *)
Definition self_logger : Logging.ref := get_logger (searcher_logging Logging.initial).
Definition at_start : Logging.state := snd (searcher_logging Logging.initial).

(** The module once the root logger has been given its handler. *)
Definition configured : Logging.state := Logging.basicConfig at_start.

Lemma span_app ic a s : fst (span ic a s) ++ snd (span ic a s) = s.
Proof.
  induction s as [|c s IH]; simpl; [reflexivity|].
  destruct (accepts ic a c); simpl; [now rewrite IH | reflexivity].
Qed.

Lemma span_accepted ic a s : Forall (fun c => accepts ic a c = true) (fst (span ic a s)).
Proof.
  induction s as [|c s IH]; simpl; [constructor|].
  destruct (accepts ic a c) eqn:E; simpl; [constructor; assumption | constructor].
Qed.

Lemma span_rest ic a s :
  match snd (span ic a s) with
  | [] => True
  | c :: _ => accepts ic a c = false
  end.
Proof.
  induction s as [|c s IH]; simpl; [exact I|].
  destruct (accepts ic a c) eqn:E; simpl; assumption.
Qed.

(** Greedy repetition never succeeds by giving characters back when the
    rest of the program cannot start with a character of the run. *)
Lemma repeat_one_greedy {R} ic a mn (k : str -> nat -> option R) :
  (forall c s p, accepts ic a c = true -> k (c :: s) p = None) ->
  forall s pos count,
    repeat_one ic a mn k s pos count =
    if mn <=? count + length (fst (span ic a s))
    then k (snd (span ic a s)) (pos + length (fst (span ic a s)))
    else None.
Proof.
  intros Hk s. induction s as [|c s IH]; intros pos count; simpl.
  - now rewrite !Nat.add_0_r.
  - destruct (accepts ic a c) eqn:E; simpl.
    + rewrite IH. replace (S count + length (fst (span ic a s)))
        with (count + S (length (fst (span ic a s)))) by lia.
      replace (S pos + length (fst (span ic a s)))
        with (pos + S (length (fst (span ic a s)))) by lia.
      destruct (mn <=? count + S (length (fst (span ic a s)))) eqn:Em.
      * destruct (k (snd (span ic a s)) (pos + S (length (fst (span ic a s))))); [reflexivity|].
        rewrite (Hk c s pos E). now destruct (mn <=? count).
      * rewrite (Hk c s pos E). now destruct (mn <=? count).
    + now rewrite !Nat.add_0_r.
Qed.

Lemma char_eq_dq c : char_eq true dq c = N.eqb c dq.
Proof. unfold char_eq, caseless; simpl. now rewrite orb_false_r. Qed.

Lemma exec_service s pos :
  exec true (code service_pattern) s pos [] =
  match field_at s with
  | Some c => Some (pos + 5 + length c + 1, [(1, pos + 5 + length c); (0, pos + 5)])
  | None => None
  end.
Proof.
  unfold field_at, msg_open.
  destruct s as [|c1 [|c2 [|c3 [|c4 [|c5 rest]]]]]; simpl; rewrite ?orb_false_r;
    repeat (match goal with
            | |- (if ?b then _ else _) = _ => destruct b; simpl; [|try reflexivity]
            end);
    try reflexivity.
  rewrite repeat_one_greedy.
  - pose proof (span_rest true (NOT_LITERAL dq) rest) as Hr.
    destruct (fst (span true (NOT_LITERAL dq) rest)) as [|c run] eqn:Ef; simpl; [reflexivity|].
    destruct (snd (span true (NOT_LITERAL dq) rest)) as [|q rest'] eqn:Es; [reflexivity|].
    cbn [accepts] in Hr. rewrite char_eq_dq in Hr. apply negb_false_iff in Hr.
    rewrite orb_false_r, Hr. simpl length.
    replace (pos + 5 + S (length run) + 1) with (S (S (S (S (S (S (pos + S (length run)))))))) by lia.
    replace (pos + 5 + S (length run)) with (S (S (S (S (S (pos + S (length run))))))) by lia.
    replace (pos + 5) with (S (S (S (S (S pos))))) by lia.
    reflexivity.
  - intros c s p Hc. cbn [accepts] in Hc. rewrite char_eq_dq in Hc.
    apply negb_true_iff in Hc. now rewrite orb_false_r, Hc.
Qed.


Lemma slice_middle {A} (a b c : list A) :
  slice (a ++ b ++ c) (Z.of_nat (length a)) (Z.of_nat (length a + length b)) = b.
Proof.
  unfold slice, slice_index.
  rewrite !length_app.
  destruct (Z.ltb_spec (Z.of_nat (length a)) 0); [lia|].
  destruct (Z.ltb_spec (Z.of_nat (length a + length b)) 0); [lia|].
  rewrite !Z.min_l by lia.
  replace (Z.to_nat (Z.of_nat (length a + length b) - Z.of_nat (length a)))
    with (length b) by lia.
  rewrite Nat2Z.id, skipn_app, skipn_all, Nat.sub_diag. simpl.
  rewrite firstn_app, firstn_all, Nat.sub_diag. simpl. apply app_nil_r.
Qed.

Lemma span_exact c post :
  ~ In dq c ->
  span true (NOT_LITERAL dq) (c ++ dq :: post) = (c, dq :: post).
Proof.
  induction c as [|x c IH]; intros Hn.
  - cbn [app span accepts]. rewrite char_eq_dq, N.eqb_refl. reflexivity.
  - cbn [app span accepts]. rewrite char_eq_dq.
    destruct (N.eqb_spec x dq) as [->|_]; [exfalso; apply Hn; now left|].
    cbn [negb]. rewrite IH; [reflexivity|]. intros H; apply Hn; now right.
Qed.

Lemma msg_open_spec s rest :
  msg_open s = Some rest <->
  exists tok, s = tok ++ dq :: rest /\ is_msg_token tok.
Proof.
  unfold msg_open, is_msg_token. split.
  - destruct s as [|c1 [|c2 [|c3 [|c4 [|c5 r]]]]]; try discriminate.
    destruct (char_eq true 109%N c1) eqn:E1; [|discriminate].
    destruct (char_eq true 115%N c2) eqn:E2; [|discriminate].
    destruct (char_eq true 103%N c3) eqn:E3; [|discriminate].
    destruct (char_eq true 58%N c4) eqn:E4; [|discriminate].
    destruct (N.eqb_spec c5 dq) as [->|]; [|discriminate].
    cbn [andb]. intros [= <-]. exists [c1; c2; c3; c4]. split; [reflexivity|].
    change (of_string "msg:") with [109; 115; 103; 58]%N.
    repeat constructor; assumption.
  - intros (tok & -> & H).
    change (of_string "msg:") with [109; 115; 103; 58]%N in H.
    inversion H as [|? c1 ? t1 E1 H1]; subst.
    inversion H1 as [|? c2 ? t2 E2 H2]; subst.
    inversion H2 as [|? c3 ? t3 E3 H3]; subst.
    inversion H3 as [|? c4 ? t4 E4 H4]; subst.
    inversion H4; subst. cbn [app].
    now rewrite E1, E2, E3, E4, N.eqb_refl.
Qed.

Lemma field_at_spec s c :
  field_at s = Some c <->
  exists tok post, s = tok ++ quoted c ++ post /\ is_msg_token tok /\
                   ~ In dq c /\ c <> [].
Proof.
  unfold field_at. split.
  - destruct (msg_open s) as [rest|] eqn:Eo; [|discriminate].
    apply msg_open_spec in Eo. destruct Eo as (tok & -> & Htok).
    pose proof (span_app true (NOT_LITERAL dq) rest) as Happ.
    pose proof (span_accepted true (NOT_LITERAL dq) rest) as Hacc.
    pose proof (span_rest true (NOT_LITERAL dq) rest) as Hrest.
    destruct (fst (span true (NOT_LITERAL dq) rest)) as [|x run]; [discriminate|].
    destruct (snd (span true (NOT_LITERAL dq) rest)) as [|q post]; [discriminate|].
    intros [= <-]. cbn [accepts] in Hrest. rewrite char_eq_dq in Hrest.
    apply negb_false_iff, N.eqb_eq in Hrest. subst q.
    exists tok, post. split.
    { unfold quoted. rewrite <- Happ. cbn [app]. now rewrite <- app_assoc. }
    repeat split; [assumption | | discriminate].
    intros Hin. rewrite Forall_forall in Hacc. specialize (Hacc _ Hin).
    cbn [accepts] in Hacc. rewrite char_eq_dq, N.eqb_refl in Hacc. discriminate.
  - intros (tok & post & -> & Htok & Hno & Hne).
    assert (Ho : msg_open (tok ++ quoted c ++ post) = Some (c ++ dq :: post)).
    { apply msg_open_spec. exists tok. split; [|assumption].
      unfold quoted. cbn [app]. now rewrite <- app_assoc. }
    rewrite Ho, span_exact by assumption. cbn [fst snd].
    destruct c; [contradiction|reflexivity].
Qed.

Lemma filled_occurrence_field_at line i c :
  filled_occurrence line i c <-> field_at (skipn i line) = Some c.
Proof.
  unfold filled_occurrence, occurrence. rewrite field_at_spec. split.
  - intros ((pre & tok & post & -> & <- & Htok & Hno) & Hne).
    exists tok, post. rewrite skipn_app, skipn_all, Nat.sub_diag. cbn [app skipn].
    auto.
  - intros (tok & post & Hs & Htok & Hno & Hne). split; [|assumption].
    exists (firstn i line), tok, post. rewrite <- Hs, firstn_skipn.
    repeat split; try assumption.
    apply firstn_length_le.
    destruct (Nat.le_gt_cases i (length line)) as [|Hgt]; [assumption|].
    rewrite skipn_all2 in Hs by lia. destruct tok; discriminate.
Qed.

Lemma first_field_some s c :
  first_field s = Some c ->
  exists i, field_at (skipn i s) = Some c /\
            forall j, j < i -> field_at (skipn j s) = None.
Proof.
  induction s as [|x s IH]; cbn [first_field].
  - destruct (field_at []) eqn:E; [|discriminate]. intros [= ->].
    exists 0. split; [assumption | intros; lia].
  - destruct (field_at (x :: s)) eqn:E.
    + intros [= ->]. exists 0. split; [assumption | intros; lia].
    + intros H. destruct (IH H) as (i & Hi & Hlt). exists (S i). split; [assumption|].
      intros [|j] Hj; [assumption|]. apply Hlt. lia.
Qed.

Lemma first_field_none s :
  first_field s = None -> forall i, field_at (skipn i s) = None.
Proof.
  induction s as [|x s IH]; cbn [first_field].
  - intros _ i. now rewrite skipn_nil.
  - destruct (field_at (x :: s)) eqn:E; [discriminate|].
    intros H [|i]; [assumption|]. now apply IH.
Qed.

Lemma search_group pre s :
  match search_from service_pattern s (length pre) with
  | Some m => group (pre ++ s) m 1
  | None => None
  end = first_field s.
Proof.
  revert pre. induction s as [|x s IH]; intros pre; cbn [search_from first_field];
    change (IGNORECASE service_pattern) with true; rewrite exec_service.
  - destruct (field_at []) eqn:E; [|reflexivity].
    apply field_at_spec in E. destruct E as (tok & post & E & _).
    destruct tok; discriminate.
  - destruct (field_at (x :: s)) as [c|] eqn:E.
    + apply field_at_spec in E. destruct E as (tok & post & -> & Htok & _).
      assert (Hlen : length tok = 4).
      { apply Forall2_length in Htok. now rewrite <- Htok. }
      unfold group. cbn [m_marks mark Nat.mul Nat.sub Nat.add Nat.eqb].
      f_equal. unfold quoted.
      replace (pre ++ tok ++ (dq :: c ++ [dq]) ++ post)
        with ((pre ++ tok ++ [dq]) ++ c ++ (dq :: post))
        by (rewrite <- !app_assoc; cbn [app]; now rewrite <- !app_assoc).
      replace (length pre + 5) with (length (pre ++ tok ++ [dq]))
        by (rewrite !length_app, Hlen; simpl; lia).
      replace (length (pre ++ tok ++ [dq]) + length c + 0)
        with (length (pre ++ tok ++ [dq]) + length c) by lia.
      apply slice_middle.
    + specialize (IH (pre ++ [x])). rewrite length_app in IH. cbn [length] in IH.
      replace (length pre + 1) with (S (length pre)) in IH by lia.
      rewrite <- app_assoc in IH. exact IH.
Qed.

Lemma extract_first_field line : extract line = first_field line.
Proof. exact (search_group [] line). Qed.

Lemma search_from_marks s pos m :
  search_from service_pattern s pos = Some m ->
  exists a b, m_marks m = [(1, b); (0, a)].
Proof.
  revert pos. induction s as [|x s IH]; intros pos; cbn [search_from];
    change (IGNORECASE service_pattern) with true; rewrite exec_service.
  - destruct (field_at []); [|discriminate]. intros [= <-]. cbn. eauto.
  - destruct (field_at (x :: s)); [intros [= <-]; cbn; eauto | apply IH].
Qed.

(** When the pattern is found, group 1 took part in the match and is not
    empty; when it is not found, there is nothing to extract. *)
Lemma search_extract line :
  match search service_pattern line with
  | Some m => exists c, group line m 1 = Some c /\ c <> [] /\ extract line = Some c
  | None => extract line = None
  end.
Proof.
  unfold extract. destruct (search service_pattern line) as [m|] eqn:E; [|reflexivity].
  pose proof (search_group [] line) as H. cbn [length app] in H.
  unfold search in E. rewrite E in H.
  destruct (search_from_marks _ _ _ E) as (a & b & Hm).
  unfold group in H |- *. rewrite Hm in H |- *.
  cbn [mark Nat.mul Nat.sub Nat.add Nat.eqb] in H |- *.
  eexists. split; [reflexivity|]. split; [|reflexivity].
  symmetry in H. apply first_field_some in H. destruct H as (i & Hi & _).
  apply field_at_spec in Hi. destruct Hi as (_ & _ & _ & _ & _ & Hne). exact Hne.
Qed.

(** C5, as amended: on every line the extractor returns the capture of the
    first occurrence of msg: (in any case), a double quote, at least one
    character other than a double quote, and the next double quote; it
    returns none exactly when the line has no such occurrence. *)
Theorem extract_first_filled_field (line : str) :
  extractor_of_filled_fields line (extract line).
Proof.
  rewrite extract_first_field. unfold extractor_of_filled_fields.
  destruct (first_field line) as [c|] eqn:E.
  - apply first_field_some in E. destruct E as (i & Hi & Hlt).
    exists i. split; [now apply filled_occurrence_field_at|].
    intros j c' Hj H. apply filled_occurrence_field_at in H.
    rewrite (Hlt j Hj) in H. discriminate.
  - intros i c H. apply filled_occurrence_field_at in H.
    rewrite (first_field_none _ E i) in H. discriminate.
Qed.

(** C5, as stated, fails on the line that is msg: followed by two double
    quotes: the pattern of the specification occurs at offset 0 with an
    empty capture, and the extractor returns none. *)
Lemma extract_empty_field_counterexample :
  ~ extractor_as_specified (of_string "msg:" ++ quoted [])
      (extract (of_string "msg:" ++ quoted [])).
Proof.
  assert (E : extract (of_string "msg:" ++ quoted []) = None) by (vm_compute; reflexivity).
  rewrite E. cbn [extractor_as_specified]. intros H. apply (H 0 []).
  exists [], (of_string "msg:"), []. repeat split.
  - repeat constructor.
  - intros [].
Qed.

(** ** The partition *)

Lemma split_loop_closed lines avg remainder k :
  forall i chunks,
    split_loop lines avg remainder (map Z.of_nat (seq i k))
      (chunk_start avg remainder (Z.of_nat i)) chunks =
    chunks ++
    map (fun j => slice lines (chunk_start avg remainder (Z.of_nat j))
                              (chunk_start avg remainder (Z.of_nat (S j))))
        (seq i k).
Proof.
  induction k as [|k IH]; intros i chunks; cbn [seq map split_loop].
  - now rewrite app_nil_r.
  - replace (chunk_start avg remainder (Z.of_nat i) + avg +
             (if (Z.of_nat i <? remainder)%Z then 1 else 0))%Z
      with (chunk_start avg remainder (Z.of_nat (S i))).
    + rewrite IH, <- app_assoc. reflexivity.
    + unfold chunk_start. destruct (Z.ltb_spec (Z.of_nat i) remainder); lia.
Qed.

Lemma slice_length {A} (l : list A) a b :
  (0 <= a <= b)%Z -> (b <= Z.of_nat (length l))%Z ->
  length (slice l a b) = Z.to_nat (b - a).
Proof.
  intros Hab Hb. unfold slice, slice_index.
  destruct (Z.ltb_spec a 0); [lia|]. destruct (Z.ltb_spec b 0); [lia|].
  rewrite !Z.min_l by lia.
  rewrite length_firstn, length_skipn. lia.
Qed.

Lemma firstn_plus {A} (a b : nat) (l : list A) :
  firstn (a + b) l = firstn a l ++ firstn b (skipn a l).
Proof.
  revert l. induction a as [|a IH]; intros l; [reflexivity|].
  destruct l as [|x l]; cbn [Nat.add firstn skipn app].
  - now rewrite firstn_nil.
  - now rewrite IH.
Qed.

Lemma slice_app {A} (l : list A) a b c :
  (0 <= a <= b)%Z -> (b <= c)%Z -> (c <= Z.of_nat (length l))%Z ->
  slice l a b ++ slice l b c = slice l a c.
Proof.
  intros Hab Hbc Hc. unfold slice, slice_index.
  destruct (Z.ltb_spec a 0); [lia|]. destruct (Z.ltb_spec b 0); [lia|].
  destruct (Z.ltb_spec c 0); [lia|].
  rewrite !Z.min_l by lia.
  replace (Z.to_nat (c - a)) with (Z.to_nat (b - a) + Z.to_nat (c - b)) by lia.
  rewrite firstn_plus, skipn_skipn.
  replace (Z.to_nat (b - a) + Z.to_nat a) with (Z.to_nat b) by lia.
  reflexivity.
Qed.

Lemma slice_all {A} (l : list A) : slice l 0 (Z.of_nat (length l)) = l.
Proof.
  unfold slice, slice_index. cbn [Z.ltb Z.compare].
  destruct (Z.ltb_spec (Z.of_nat (length l)) 0); [lia|].
  rewrite Z.min_id, Z.min_l by lia. cbn [Z.to_nat skipn].
  rewrite Z.sub_0_r, Nat2Z.id. apply firstn_all.
Qed.

Section Partition.

Variable lines : list str.
Variable n : Z.
Hypothesis n_pos : (1 <= n)%Z.

Let len := Z.of_nat (length lines).
Let avg := (len / n)%Z.
Let remainder := (len mod n)%Z.

Lemma avg_remainder :
  (0 <= avg)%Z /\ (0 <= remainder < n)%Z /\ (len = n * avg + remainder)%Z.
Proof.
  subst avg remainder. repeat split.
  - apply Z.div_pos; subst len; lia.
  - apply Z.mod_pos_bound; lia.
  - apply Z.mod_pos_bound; lia.
  - apply Z.div_mod; lia.
Qed.

Lemma chunk_start_mono i j :
  (0 <= i <= j)%Z -> (chunk_start avg remainder i <= chunk_start avg remainder j)%Z.
Proof.
  destruct avg_remainder as (Ha & Hr & _). unfold chunk_start. intros H.
  assert (i * avg <= j * avg)%Z by (apply Z.mul_le_mono_nonneg_r; lia). lia.
Qed.

Lemma chunk_start_0 : chunk_start avg remainder 0 = 0%Z.
Proof. destruct avg_remainder as (Ha & Hr & _). unfold chunk_start. lia. Qed.

Lemma chunk_start_n : chunk_start avg remainder n = len.
Proof. destruct avg_remainder as (Ha & Hr & Hl). unfold chunk_start. lia. Qed.

Lemma split_chunks :
  _split_lines_evenly lines n =
  Return (map (fun j => slice lines (chunk_start avg remainder (Z.of_nat j))
                                    (chunk_start avg remainder (Z.of_nat (S j))))
              (seq 0 (Z.to_nat n))).
Proof.
  unfold _split_lines_evenly. destruct (Z.eqb_spec n 0); [lia|].
  f_equal. fold len avg remainder. unfold range.
  rewrite <- (chunk_start_0) at 1.
  exact (split_loop_closed lines avg remainder (Z.to_nat n) 0 []).
Qed.

Lemma concat_slices k :
  (Z.of_nat k <= n)%Z ->
  concat (map (fun j => slice lines (chunk_start avg remainder (Z.of_nat j))
                                    (chunk_start avg remainder (Z.of_nat (S j))))
              (seq 0 k)) =
  slice lines 0 (chunk_start avg remainder (Z.of_nat k)).
Proof.
  induction k as [|k IH]; intros Hk.
  - cbn [seq map concat]. change (Z.of_nat 0) with 0%Z. rewrite chunk_start_0.
    unfold slice, slice_index. cbn. rewrite Z.min_l by lia. reflexivity.
  - rewrite seq_S, map_app, concat_app, IH by lia. cbn [map concat Nat.add].
    rewrite app_nil_r. apply slice_app.
    + split; [reflexivity|]. rewrite <- chunk_start_0. apply chunk_start_mono; lia.
    + apply chunk_start_mono; lia.
    + fold len. rewrite <- chunk_start_n. apply chunk_start_mono; lia.
Qed.

End Partition.

Lemma nth_error_split {A} (l : list A) i x :
  nth_error l i = Some x -> l = firstn i l ++ x :: skipn (S i) l.
Proof.
  revert i. induction l as [|y l IH]; intros [|i] H; try discriminate.
  - now injection H as ->.
  - cbn [firstn skipn app]. f_equal. now apply IH.
Qed.

Lemma nth_error_map_seq {A} (f : nat -> A) k i x :
  nth_error (map f (seq 0 k)) i = Some x -> i < k /\ x = f i.
Proof.
  intros H. assert (Hi : i < k).
  { assert (Hb : i < length (map f (seq 0 k))) by (apply nth_error_Some; congruence).
    now rewrite length_map, length_seq in Hb. }
  split; [assumption|].
  rewrite nth_error_map, nth_error_seq in H.
  destruct (Nat.ltb_spec i k); [|lia]. cbn in H. congruence.
Qed.

Lemma split_concat (lines : list str) (n : Z) :
  (1 <= n)%Z ->
  exists chunks, _split_lines_evenly lines n = Return chunks /\ concat chunks = lines.
Proof.
  intros Hn. eexists. split; [apply (split_chunks lines n Hn)|].
  rewrite concat_slices by lia.
  rewrite Z2Nat.id, chunk_start_n by lia. apply slice_all.
Qed.

(** C2: for N >= 1 the chunks of [_split_lines_evenly], concatenated in
    order, are the input exactly, and each chunk is the contiguous run of
    lines that follows the chunks before it. *)
Theorem split_covers (lines : list str) (n : Z) :
  (1 <= n)%Z ->
  exists chunks,
    _split_lines_evenly lines n = Return chunks /\
    concat chunks = lines /\
    forall i chunk,
      nth_error chunks i = Some chunk ->
      lines = concat (firstn i chunks) ++ chunk ++ concat (skipn (S i) chunks).
Proof.
  intros Hn. destruct (split_concat lines n Hn) as (chunks & Hs & Hc).
  exists chunks. split; [assumption|]. split; [assumption|].
  intros i chunk Hi. pose proof (nth_error_split _ _ _ Hi) as Hsplit.
  transitivity (concat (firstn i chunks ++ chunk :: skipn (S i) chunks)).
  - rewrite <- Hsplit. now symmetry.
  - now rewrite concat_app.
Qed.

Lemma split_covers_witness :
  exists chunks,
    _split_lines_evenly [of_string "a"; of_string "b"; of_string "c"] 2 = Return chunks /\
    concat chunks = [of_string "a"; of_string "b"; of_string "c"] /\
    forall i chunk,
      nth_error chunks i = Some chunk ->
      [of_string "a"; of_string "b"; of_string "c"] =
      concat (firstn i chunks) ++ chunk ++ concat (skipn (S i) chunks).
Proof. apply (split_covers [of_string "a"; of_string "b"; of_string "c"] 2). lia. Defined.

(** C3: for N >= 1 [_split_lines_evenly] returns exactly N chunks; with
    base = L div N and remainder = L mod N, chunk i has base + 1 lines when
    i < remainder and base lines otherwise, so that two chunks differ in
    size by at most one line. *)
Theorem split_sizes (lines : list str) (n : Z) :
  (1 <= n)%Z ->
  exists chunks,
    _split_lines_evenly lines n = Return chunks /\
    Z.of_nat (length chunks) = n /\
    (forall i chunk,
       nth_error chunks i = Some chunk ->
       Z.of_nat (length chunk) =
       (Z.of_nat (length lines) / n +
        (if Z.of_nat i <? Z.of_nat (length lines) mod n then 1 else 0))%Z) /\
    (forall a b, In a chunks -> In b chunks -> length a <= length b + 1).
Proof.
  intros Hn. eexists. split; [apply (split_chunks lines n Hn)|].
  match goal with |- Z.of_nat (length ?cs) = _ /\ _ => set (chunks := cs) end.
  destruct (avg_remainder lines n Hn) as (Ha & Hr & Hl).
  assert (Hsize : forall i chunk,
             nth_error chunks i = Some chunk ->
             Z.of_nat (length chunk) =
             (Z.of_nat (length lines) / n +
              (if Z.of_nat i <? Z.of_nat (length lines) mod n then 1 else 0))%Z).
  { intros i chunk Hi. subst chunks.
    apply nth_error_map_seq in Hi. destruct Hi as (Hlt & ->).
    pose proof (chunk_start_0 lines n Hn) as H0.
    pose proof (chunk_start_n lines n Hn) as Hlen.
    pose proof (chunk_start_mono lines n Hn 0 (Z.of_nat i)) as M1.
    pose proof (chunk_start_mono lines n Hn (Z.of_nat i) (Z.of_nat (S i))) as M2.
    pose proof (chunk_start_mono lines n Hn (Z.of_nat (S i)) n) as M3.
    rewrite slice_length by lia.
    unfold chunk_start.
    destruct (Z.ltb_spec (Z.of_nat i) (Z.of_nat (length lines) mod n)); lia. }
  split; [|split; [exact Hsize|]].
  - subst chunks. rewrite length_map, length_seq. lia.
  - intros a b Ia Ib.
    apply In_nth_error in Ia. apply In_nth_error in Ib.
    destruct Ia as (i & Hi). destruct Ib as (j & Hj).
    apply Hsize in Hi. apply Hsize in Hj.
    destruct (Z.of_nat i <? _)%Z; destruct (Z.of_nat j <? _)%Z; lia.
Qed.

Lemma split_sizes_witness :
  exists chunks,
    _split_lines_evenly [of_string "a"; of_string "b"; of_string "c"] 2 = Return chunks /\
    Z.of_nat (length chunks) = 2%Z /\
    (forall i chunk,
       nth_error chunks i = Some chunk ->
       Z.of_nat (length chunk) =
       (Z.of_nat (length [of_string "a"; of_string "b"; of_string "c"]) / 2 +
        (if Z.of_nat i <? Z.of_nat (length [of_string "a"; of_string "b"; of_string "c"]) mod 2
         then 1 else 0))%Z) /\
    (forall a b, In a chunks -> In b chunks -> length a <= length b + 1).
Proof. apply (split_sizes [of_string "a"; of_string "b"; of_string "c"] 2). lia. Defined.

(** ** The scanner *)

Lemma startswith_spec p s :
  startswith p s = true <-> exists post, s = p ++ post.
Proof.
  revert s. induction p as [|x p IH]; intros s; cbn [startswith].
  - split; [intros _; now exists s | reflexivity].
  - destruct s as [|c s].
    + split; [discriminate | intros (post & H); discriminate].
    + rewrite andb_true_iff, N.eqb_eq, IH. split.
      * intros (-> & post & ->). now exists post.
      * intros (post & [= -> ->]). split; [reflexivity | now exists post].
Qed.

Lemma contains_spec needle hay :
  contains needle hay = true <-> substring needle hay.
Proof.
  unfold substring. induction hay as [|c hay IH]; cbn [contains].
  - rewrite orb_false_r, startswith_spec. split.
    + intros (post & H). now exists [], post.
    + intros (pre & post & H). destruct pre; [now exists post|discriminate].
  - rewrite orb_true_iff, startswith_spec, IH. split.
    + intros [(post & H) | (pre & post & ->)].
      * now exists [], post.
      * now exists (c :: pre), post.
    + intros ([|x pre] & post & H).
      * left. now exists post.
      * right. injection H as -> ->. now exists pre, post.
Qed.

Lemma contains_nil hay : contains [] hay = true.
Proof. destruct hay; reflexivity. Qed.

Section ScannerFacts.

Variable lower : str -> str.

(** The test of the loop, unfolded once. *)
Lemma find_loop_cons tl out line chunk n :
  find_loop lower tl out (line :: chunk) n =
  if match extract line with
     | Some c => contains tl (lower c)
     | None => false
     end
  then
    match out with
    | Some f =>
        match write f with
        | Return f' => emit (Write (name f) line) (find_loop lower tl (Some f') chunk (S n))
        | Raise e => (Raise e, [])
        end
    | None =>
        emit (Log Searcher INFO (Text (rstrip line))) (find_loop lower tl None chunk (S n))
    end
  else find_loop lower tl out chunk n.
Proof.
  cbn [find_loop]. pose proof (search_extract line) as H.
  destruct (search service_pattern line) as [m|].
  - destruct H as (c & Hg & Hne & ->). rewrite Hg.
    destruct c as [|x c]; [contradiction|]. cbn [py_not orb].
    now destruct (contains tl (lower (x :: c))).
  - now rewrite H.
Qed.

Lemma find_loop_counts target out chunk n :
  writable out (length (filter (counted lower target) chunk)) ->
  find_loop lower (lower target) out chunk n =
  (Return (n + length (filter (counted lower target) chunk)),
   map (forwarded out) (filter (counted lower target) chunk)).
Proof.
  revert out n. induction chunk as [|line chunk IH]; intros out n Hw.
  - cbn. now rewrite Nat.add_0_r.
  - rewrite find_loop_cons. cbn [filter]. unfold counted at 1 3 5.
    fold (counted lower target line) in *. cbn [filter] in Hw.
    destruct (counted lower target line) eqn:Ec.
    + cbn [length map] in *. destruct out as [f|].
      * unfold write. rewrite (Hw 0) by lia.
        rewrite IH; [unfold emit; cbn; f_equal; f_equal; lia|].
        cbn. intros k Hk. apply Hw. lia.
      * rewrite IH by exact I. unfold emit; cbn. f_equal; f_equal; lia.
    + now apply IH.
Qed.

(** A scan ends with a count or with the error of a failed write. *)
Lemma find_loop_result tl out chunk n :
  (exists k, fst (find_loop lower tl out chunk n) = Return k) \/
  fst (find_loop lower tl out chunk n) = Raise OSError.
Proof.
  revert out n. induction chunk as [|line chunk IH]; intros out n.
  - left. now exists n.
  - rewrite find_loop_cons.
    destruct (match extract line with Some c => contains tl (lower c) | None => false end);
      [|apply IH].
    destruct out as [f|]; [|apply IH].
    unfold write. destruct (pending f 0); [apply IH | now right].
Qed.

End ScannerFacts.

Lemma py_not_false s : s <> [] -> py_not s = false.
Proof. destruct s; [contradiction|reflexivity]. Qed.

Lemma counted_spec lower target line :
  counted lower target line = true <->
  exists c, extract line = Some c /\ substring (lower target) (lower c).
Proof.
  unfold counted. destruct (extract line) as [c|].
  - rewrite contains_spec. split; [intros H; now exists c | now intros (c' & [= <-] & H)].
  - split; [discriminate | now intros (c & H & _)].
Qed.

Lemma find_matches_writable lower self chunk out :
  service_name self <> [] ->
  writable out (length (filter (counted lower (service_name self)) chunk)) ->
  _find_matches lower self chunk out =
  (Return (length (filter (counted lower (service_name self)) chunk)),
   map (forwarded out) (filter (counted lower (service_name self)) chunk)).
Proof.
  intros Hne Hw. unfold _find_matches. rewrite (py_not_false _ Hne).
  now rewrite find_loop_counts.
Qed.

(** C4: with a service name that is not empty, [_find_matches] counts
    exactly the lines on which the extractor yields a value that has the
    lowered service name as a substring once lowered; every counted line is
    forwarded to the sink, in order; and a chunk without a match gives 0. *)
Theorem find_matches_counts (lower : str -> str) (self : SuricataRuleSearcher)
    (chunk : list str) (out : option TextIO) :
  service_name self <> [] ->
  (forall line,
     counted lower (service_name self) line = true <->
     exists c, extract line = Some c /\
               substring (lower (service_name self)) (lower c)) /\
  (writable out (length (filter (counted lower (service_name self)) chunk)) ->
   _find_matches lower self chunk out =
   (Return (length (filter (counted lower (service_name self)) chunk)),
    map (forwarded out) (filter (counted lower (service_name self)) chunk))) /\
  (filter (counted lower (service_name self)) chunk = [] ->
   _find_matches lower self chunk out = (Return 0, [])).
Proof.
  intros Hne. split; [intros line; apply counted_spec|].
  assert (H : writable out (length (filter (counted lower (service_name self)) chunk)) ->
              _find_matches lower self chunk out =
              (Return (length (filter (counted lower (service_name self)) chunk)),
               map (forwarded out) (filter (counted lower (service_name self)) chunk))).
  { now apply find_matches_writable. }
  split; [exact H|].
  intros E. rewrite E in H. apply H.
  destruct out; [intros k Hk; cbn in Hk; lia | exact I].
Qed.

(** C10: with the empty service name [_find_matches] returns 0 and sends
    nothing to the sink, whatever the chunk and the sink, although the
    empty string is a substring of every text. *)
Theorem find_matches_empty_service_name (lower : str -> str)
    (self : SuricataRuleSearcher) (chunk : list str) (out : option TextIO) :
  service_name self = [] ->
  _find_matches lower self chunk out = (Return 0, []) /\
  forall field, contains (service_name self) field = true.
Proof.
  intros E. unfold _find_matches. rewrite E. split; [reflexivity|].
  apply contains_nil.
Qed.

Lemma dropwhile_spec p s :
  exists ws, s = ws ++ dropwhile p s /\ Forall (fun c => p c = true) ws /\
             match dropwhile p s with [] => True | c :: _ => p c = false end.
Proof.
  induction s as [|c s (ws & Hs & Hws & Hd)]; cbn [dropwhile].
  - exists []. repeat split. constructor.
  - destruct (p c) eqn:E.
    + exists (c :: ws). cbn [app]. rewrite <- Hs. repeat split; [|assumption].
      now constructor.
    + exists []. repeat split; [constructor | assumption].
Qed.

(** [rstrip] removes the whole run of white space at the end of the line
    and nothing else. *)
Lemma rstrip_spec line :
  exists ws, line = rstrip line ++ ws /\ Forall (fun c => isspace c = true) ws /\
             no_trailing_space (rstrip line).
Proof.
  unfold rstrip. destruct (dropwhile_spec isspace (rev line)) as (ws & Hs & Hws & Hd).
  exists (rev ws). repeat split.
  - rewrite <- rev_app_distr, <- Hs. now rewrite rev_involutive.
  - now apply Forall_rev.
  - intros t x E. apply (f_equal (@rev char)) in E.
    rewrite rev_involutive, rev_app_distr in E. cbn in E. now rewrite E in Hd.
Qed.

Lemma rstrip_terminated body :
  no_trailing_space body ->
  rstrip (body ++ [lf]) = body /\ strip_terminator (body ++ [lf]) = body.
Proof.
  intros Hb. unfold rstrip, strip_terminator. rewrite rev_app_distr. cbn [rev app].
  change (isspace lf) with true. cbn [dropwhile]. rewrite N.eqb_refl, rev_involutive.
  split; [|reflexivity].
  destruct (rev body) as [|x r] eqn:E; [apply (f_equal (@rev char)) in E;
    rewrite rev_involutive in E; now subst|].
  cbn [dropwhile]. apply (f_equal (@rev char)) in E. rewrite rev_involutive in E.
  cbn [rev] in E. rewrite (Hb _ _ E). cbn [rev]. now rewrite E.
Qed.

Lemma find_matches_counts_witness :
  (forall line,
     counted ascii_lower (service_name (demo_searcher (of_string "service") None 2)) line = true <->
     exists c, extract line = Some c /\
               substring (ascii_lower (service_name (demo_searcher (of_string "service") None 2)))
                 (ascii_lower c)) /\
  (writable None
     (length (filter (counted ascii_lower
                        (service_name (demo_searcher (of_string "service") None 2)))
                demo_lines)) ->
   _find_matches ascii_lower (demo_searcher (of_string "service") None 2) demo_lines None =
   (Return (length (filter (counted ascii_lower
                              (service_name (demo_searcher (of_string "service") None 2)))
                      demo_lines)),
    map (forwarded None)
      (filter (counted ascii_lower
                 (service_name (demo_searcher (of_string "service") None 2)))
         demo_lines))) /\
  (filter (counted ascii_lower (service_name (demo_searcher (of_string "service") None 2)))
     demo_lines = [] ->
   _find_matches ascii_lower (demo_searcher (of_string "service") None 2) demo_lines None =
   (Return 0, [])).
Proof.
  apply (find_matches_counts ascii_lower (demo_searcher (of_string "service") None 2)
           demo_lines None).
  discriminate.
Defined.

Lemma find_matches_empty_service_name_witness :
  _find_matches ascii_lower (demo_searcher [] None 2) demo_lines None = (Return 0, []) /\
  forall field, contains (service_name (demo_searcher [] None 2)) field = true.
Proof.
  apply (find_matches_empty_service_name ascii_lower (demo_searcher [] None 2) demo_lines None).
  reflexivity.
Defined.

(** C8, as amended: for the matched lines of a chunk, the file variant
    writes each line verbatim, terminator included, between the opening and
    the closing of the file; the console variant logs each line with all
    its trailing white space removed (the line terminator and any blanks,
    tabs and the like before it) and nothing else changed, which is the
    line without its terminator when no other white space ends it. *)
Theorem sink_receives (lower : str -> str) (self : SuricataRuleSearcher)
    (io : file_io) (chunk : list str) :
  service_name self <> [] ->
  (no_output_file self = true ->
   _search_for_service_in_chunk lower self io chunk =
   (Return (length (filter (counted lower (service_name self)) chunk)),
    map (fun line => Log Searcher INFO (Text (rstrip line)))
      (filter (counted lower (service_name self)) chunk))) /\
  (forall path,
     output_file self = Some path -> path <> [] ->
     open_ok io = true -> close_ok io = true ->
     (forall k, k < length (filter (counted lower (service_name self)) chunk) ->
                write_ok io k = true) ->
     _search_for_service_in_chunk lower self io chunk =
     (Return (length (filter (counted lower (service_name self)) chunk)),
      OpenAppend path ::
      map (Write path) (filter (counted lower (service_name self)) chunk) ++
      [Close path])) /\
  (forall line,
     exists ws, line = rstrip line ++ ws /\ Forall (fun c => isspace c = true) ws /\
                no_trailing_space (rstrip line)) /\
  (forall body,
     no_trailing_space body -> rstrip (body ++ [lf]) = strip_terminator (body ++ [lf])).
Proof.
  intros Hne. split; [|split; [|split]].
  - intros Hno. unfold _search_for_service_in_chunk. rewrite Hno.
    now rewrite (find_matches_writable lower self chunk None Hne I).
  - intros path Hout Hpath Hopen Hclose Hw.
    unfold _search_for_service_in_chunk, no_output_file.
    rewrite Hout, (py_not_false _ Hpath), Hopen.
    rewrite (find_matches_writable lower self chunk
               (Some {| name := path; pending := write_ok io |}) Hne Hw).
    cbn [fst snd]. rewrite Hclose. reflexivity.
  - apply rstrip_spec.
  - intros body Hb. destruct (rstrip_terminated body Hb) as (-> & ->). reflexivity.
Qed.

Lemma sink_receives_witness :
  (no_output_file (demo_searcher (of_string "service") None 2) = true ->
   _search_for_service_in_chunk ascii_lower (demo_searcher (of_string "service") None 2)
     sound_io demo_lines =
   (Return (length (filter (counted ascii_lower
                              (service_name (demo_searcher (of_string "service") None 2)))
                      demo_lines)),
    map (fun line => Log Searcher INFO (Text (rstrip line)))
      (filter (counted ascii_lower
                 (service_name (demo_searcher (of_string "service") None 2)))
         demo_lines))) /\
  (forall path,
     output_file (demo_searcher (of_string "service") None 2) = Some path -> path <> [] ->
     open_ok sound_io = true -> close_ok sound_io = true ->
     (forall k, k < length (filter (counted ascii_lower
                                      (service_name (demo_searcher (of_string "service") None 2)))
                              demo_lines) ->
                write_ok sound_io k = true) ->
     _search_for_service_in_chunk ascii_lower (demo_searcher (of_string "service") None 2)
       sound_io demo_lines =
     (Return (length (filter (counted ascii_lower
                                (service_name (demo_searcher (of_string "service") None 2)))
                        demo_lines)),
      OpenAppend path ::
      map (Write path)
        (filter (counted ascii_lower
                   (service_name (demo_searcher (of_string "service") None 2)))
           demo_lines) ++
      [Close path])) /\
  (forall line,
     exists ws, line = rstrip line ++ ws /\ Forall (fun c => isspace c = true) ws /\
                no_trailing_space (rstrip line)) /\
  (forall body,
     no_trailing_space body -> rstrip (body ++ [lf]) = strip_terminator (body ++ [lf])).
Proof.
  apply (sink_receives ascii_lower (demo_searcher (of_string "service") None 2)
           sound_io demo_lines).
  discriminate.
Defined.

(** C8, as stated, fails for the console on a matched line that has a
    blank before its line feed: the logged text has lost the blank too. *)
Lemma console_strips_blanks_counterexample :
  exists text,
    _search_for_service_in_chunk ascii_lower (demo_searcher (of_string "ssh") None 1)
      sound_io [blank_ended_line] =
    (Return 1, [Log Searcher INFO (Text text)]) /\
    text <> strip_terminator blank_ended_line.
Proof.
  eexists. split; [vm_compute; reflexivity|]. vm_compute. discriminate.
Qed.

Example end_to_end_scenario :
  main ascii_lower (@rev _) demo_env (demo_searcher (of_string "service") None 2) =
  (0%Z,
   {| outcome := Return tt;
      main_thread :=
        [Log Searcher INFO (Starting (of_string "service") (of_string "rules") 2);
         ReadLines (of_string "rules");
         Log Searcher INFO (TotalMatches 2 (of_string "service"))];
      tasks :=
        [[Log Searcher INFO (Text (rstrip (rule (of_string "ET POLICY SSH Service"))))];
         [Log Searcher INFO (Text (rstrip (rule (of_string "ssh SERVICE login attempt"))))]] |}).
Proof. vm_compute. reflexivity. Qed.

Lemma is_msg_token_length tok : is_msg_token tok -> length tok = 4.
Proof. intros H. apply Forall2_length in H. now rewrite <- H. Qed.

Lemma app_same_length {A} (a b c d : list A) :
  a ++ b = c ++ d -> length a = length c -> a = c /\ b = d.
Proof.
  revert c. induction a as [|x a IH]; intros [|y c] E L; try discriminate.
  - now split.
  - injection E as -> E. injection L as L. destruct (IH _ E L) as (Ha & Hb). now subst.
Qed.

Lemma until_quote_unique (c1 c2 r1 r2 : str) :
  ~ In dq c1 -> ~ In dq c2 -> c1 ++ dq :: r1 = c2 ++ dq :: r2 -> c1 = c2.
Proof.
  revert c2. induction c1 as [|x c1 IH]; intros [|y c2] H1 H2 E.
  - reflexivity.
  - injection E as Hy _. exfalso. apply H2. left. now symmetry.
  - injection E as Hx _. exfalso. apply H1. now left.
  - injection E as -> E. f_equal. apply IH with (c2 := c2); [| |assumption].
    + intros H; apply H1; now right.
    + intros H; apply H2; now right.
Qed.

Lemma occurrence_unique line i c1 c2 :
  occurrence line i c1 -> occurrence line i c2 -> c1 = c2.
Proof.
  intros (p1 & t1 & r1 & E1 & L1 & T1 & N1) (p2 & t2 & r2 & E2 & L2 & T2 & N2).
  rewrite E1 in E2. apply app_same_length in E2; [|congruence].
  destruct E2 as (_ & E2). apply app_same_length in E2;
    [|rewrite (is_msg_token_length _ T1), (is_msg_token_length _ T2); reflexivity].
  destruct E2 as (_ & E2). unfold quoted in E2. cbn [app] in E2.
  injection E2 as E2. rewrite <- !app_assoc in E2. cbn [app] in E2.
  exact (until_quote_unique _ _ _ _ N1 N2 E2).
Qed.

Lemma occurrence_opens line i c : occurrence line i c -> opens_field line i.
Proof.
  intros (pre & tok & post & E & L & T & _).
  exists pre, tok, (c ++ [dq] ++ post). repeat split; try assumption.
  rewrite E. unfold quoted. cbn [app]. now rewrite <- app_assoc.
Qed.

(** C9, as amended: on a line whose only msg field is empty (no other
    msg: and double quote opens a field on the line), the extractor yields
    no value, and the line is not counted for any service name nor sent to
    any sink. *)
Theorem empty_msg_never_matches (lower : str -> str) (self : SuricataRuleSearcher)
    (line : str) (i : nat) (out : option TextIO) :
  occurrence line i [] ->
  (forall j, opens_field line j -> j = i) ->
  extract line = None /\
  _find_matches lower self [line] out = (Return 0, []).
Proof.
  intros Hocc Honly.
  assert (E : extract line = None).
  { rewrite extract_first_field. destruct (first_field line) as [c|] eqn:E; [|reflexivity].
    apply first_field_some in E. destruct E as (k & Hk & _).
    apply filled_occurrence_field_at in Hk. destruct Hk as (Hk & Hne).
    pose proof (Honly k (occurrence_opens _ _ _ Hk)) as ->.
    exfalso. apply Hne. exact (occurrence_unique _ _ _ _ Hk Hocc). }
  split; [assumption|].
  unfold _find_matches. destruct (py_not (service_name self)); [reflexivity|].
  rewrite find_loop_cons, E. reflexivity.
Qed.

Lemma empty_msg_never_matches_witness :
  extract (of_string "msg:" ++ quoted []) = None /\
  _find_matches ascii_lower (demo_searcher (of_string "ssh") None 1)
    [of_string "msg:" ++ quoted []] None = (Return 0, []).
Proof.
  apply (empty_msg_never_matches ascii_lower (demo_searcher (of_string "ssh") None 1)
           (of_string "msg:" ++ quoted []) 0 None).
  - exists [], (of_string "msg:"), []. repeat split.
    + repeat constructor.
    + intros [].
  - intros j (pre & tok & rest & E & L & T). subst j.
    pose proof (is_msg_token_length _ T) as Lt.
    destruct pre as [|x [|y pre]]; [reflexivity | |].
    + destruct tok as [|c1 tok]; [discriminate|].
      injection E as _ E _. inversion T as [|? ? ? ? H1 _]; subst.
      vm_compute in H1. discriminate.
    + apply (f_equal (@length char)) in E. rewrite !length_app in E. cbn in E. lia.
Defined.

(** ** The orchestrator *)

Lemma list_sum_perm (a b : list nat) : Permutation a b -> list_sum a = list_sum b.
Proof. induction 1; unfold list_sum in *; cbn in *; lia. Qed.

Lemma list_sum_cons x l : list_sum (x :: l) = x + list_sum l.
Proof. reflexivity. Qed.

Lemma sum_nonempty {A} (g : list A -> nat) (l : list (list A)) :
  g [] = 0 ->
  list_sum (map g (filter nonempty l)) = list_sum (map g l).
Proof.
  intros Hg. induction l as [|c l IH]; [reflexivity|].
  destruct c as [|x c]; cbn [filter nonempty map]; rewrite ?list_sum_cons.
  - now rewrite IH, Hg.
  - now rewrite IH.
Qed.

Lemma count_concat {A} (f : A -> bool) (l : list (list A)) :
  list_sum (map (fun c => length (filter f c)) l) = length (filter f (concat l)).
Proof.
  induction l as [|c l IH]; [reflexivity|].
  cbn [map concat]. now rewrite list_sum_cons, filter_app, length_app, IH.
Qed.

Lemma map_combine_seq {A B} (F : nat -> A -> B) (G : A -> B) (l : list A) :
  (forall i x, F i x = G x) ->
  forall a, map (fun ix => F (fst ix) (snd ix)) (combine (seq a (length l)) l) = map G l.
Proof.
  intros H. induction l as [|x l IH]; intros a; [reflexivity|].
  cbn [length seq combine map fst snd]. now rewrite H, IH.
Qed.

Section OrchestratorFacts.

Variable lower : str -> str.
Variable as_completed : list (result nat) -> list (result nat).
Hypothesis as_completed_perm : forall rs, Permutation (as_completed rs) rs.

Lemma search_result self io chunk :
  (exists k, fst (_search_for_service_in_chunk lower self io chunk) = Return k) \/
  fst (_search_for_service_in_chunk lower self io chunk) = Raise OSError.
Proof.
  assert (H : forall out,
             (exists k, fst (_find_matches lower self chunk out) = Return k) \/
             fst (_find_matches lower self chunk out) = Raise OSError).
  { intros out. unfold _find_matches. destruct (py_not (service_name self)).
    - left. now exists 0.
    - apply find_loop_result. }
  unfold _search_for_service_in_chunk.
  destruct (no_output_file self); [apply H|].
  destruct (open_ok io); [|now right].
  destruct (H (Some {| name := match output_file self with Some p => p | None => [] end;
                       pending := write_ok io |})) as [(k & ->) | ->].
  - destruct (close_ok io); [left; now exists k | now right].
  - now right.
Qed.

Lemma search_sound self io chunk :
  service_name self <> [] -> sound io ->
  fst (_search_for_service_in_chunk lower self io chunk) =
  Return (length (filter (counted lower (service_name self)) chunk)).
Proof.
  intros Hne (Hopen & Hclose & Hw). unfold _search_for_service_in_chunk.
  destruct (no_output_file self).
  - now rewrite (find_matches_writable lower self chunk None Hne I).
  - rewrite Hopen, find_matches_writable; [|assumption|intros k _; apply Hw].
    cbn [fst]. now rewrite Hclose.
Qed.

Lemma submit_loop_spec env self chunks :
  forall futures,
    submit_loop lower env self chunks futures =
    futures ++
    map (fun ic => _search_for_service_in_chunk lower self (task_io env (fst ic)) (snd ic))
      (combine (seq (length futures) (length (filter nonempty chunks)))
         (filter nonempty chunks)).
Proof.
  induction chunks as [|c chunks IH]; intros futures; cbn [submit_loop].
  - cbn. now rewrite app_nil_r.
  - destruct c as [|x c]; cbn [filter nonempty]; [apply IH|].
    rewrite IH, length_app, <- app_assoc. cbn [length seq combine map app fst snd].
    now rewrite Nat.add_1_r.
Qed.

Lemma collect_loop_spec rs :
  Forall (fun r => exists k, r = Return k \/ r = Raise OSError) rs ->
  forall total,
    collect_loop rs total =
    (Return (total + list_sum (map count_of rs)), thread_errors (raised rs)).
Proof.
  induction 1 as [|r rs (k & [-> | ->]) _ IH]; intros total; cbn [collect_loop].
  - cbn. now rewrite Nat.add_0_r.
  - rewrite IH. cbn [map raised count_of]. rewrite list_sum_cons. f_equal. f_equal. lia.
  - cbn [is_Exception]. rewrite IH. reflexivity.
Qed.

End OrchestratorFacts.

(** The tasks of a run: one per non-empty chunk, numbered as submitted. *)
Lemma run_spec lower as_completed env self lines chunks :
  (forall rs, Permutation (as_completed rs) rs) ->
  service_name self <> [] ->
  readlines env (input_file self) = Return lines ->
  (1 <= num_threads self)%Z ->
  _split_lines_evenly lines (num_threads self) = Return chunks ->
  process_file_in_chunks lower as_completed env self =
  {| outcome := Return tt;
     main_thread :=
       [Log Searcher INFO
          (Starting (service_name self) (input_file self) (num_threads self));
        ReadLines (input_file self)] ++
       thread_errors
         (raised (as_completed (map fst (work_futures lower env self chunks)))) ++
       [Log Searcher INFO
          (TotalMatches
             (list_sum (map count_of (map fst (work_futures lower env self chunks))))
             (service_name self))];
     tasks := map snd (work_futures lower env self chunks) |}.
Proof.
  intros Hperm Hne Hread Hn Hsplit.
  unfold process_file_in_chunks, _validate_service_name, load_file.
  rewrite (py_not_false _ Hne), Hread. cbn [fst snd negb emit app].
  rewrite Hsplit. destruct (Z.leb_spec (num_threads self) 0); [lia|].
  rewrite submit_loop_spec. cbn [app length]. fold (work_futures lower env self chunks).
  rewrite collect_loop_spec.
  - cbn [fst snd Nat.add].
    rewrite (list_sum_perm _ _ (Permutation_map count_of (Hperm _))). reflexivity.
  - apply Forall_forall. intros r Hr.
    apply (Permutation_in _ (Hperm _)) in Hr.
    apply in_map_iff in Hr. destruct Hr as (fu & <- & Hfu).
    unfold work_futures in Hfu. apply in_map_iff in Hfu. destruct Hfu as (ic & <- & _).
    destruct (search_result lower self (task_io env (fst ic)) (snd ic)) as [(k & ->) | ->].
    + exists k. now left.
    + exists 0. now right.
Qed.

Lemma raised_perm (a b : list (result nat)) :
  Permutation a b -> Permutation (raised a) (raised b).
Proof.
  induction 1 as [|r a b _ IH|r1 r2 a|a b c _ IH1 _ IH2]; cbn [raised].
  - constructor.
  - destruct r; [assumption | now constructor].
  - destruct r1, r2; try reflexivity. constructor.
  - now transitivity (raised b).
Qed.

Lemma raised_returns {A} (g : A -> nat) (l : list A) :
  raised (map (fun x => Return (g x)) l) = [].
Proof. induction l; [reflexivity | assumption]. Qed.

(** C6: with the empty service name the run ends in [sys.exit(1)] before
    anything else is done: the only event is the error record of the
    validation, so the input is not read, no task is run, nothing is
    written or reported, and the process exits with status 1. *)
Theorem empty_service_name_aborts (lower : str -> str)
    (as_completed : list (result nat) -> list (result nat))
    (env : environment) (self : SuricataRuleSearcher) :
  service_name self = [] ->
  main lower as_completed env self =
  (1%Z, {| outcome := Raise (SystemExit 1);
           main_thread := [Log Searcher ERROR (NoServiceName [])];
           tasks := [] |}) /\
  fst (main lower as_completed env self) <> 0%Z.
Proof.
  intros E. unfold main, process_file_in_chunks, _validate_service_name.
  rewrite E. cbn. split; [reflexivity | discriminate].
Qed.

Lemma empty_service_name_aborts_witness :
  main ascii_lower (@rev _) demo_env (demo_searcher [] None 2) =
  (1%Z, {| outcome := Raise (SystemExit 1);
           main_thread := [Log Searcher ERROR (NoServiceName [])];
           tasks := [] |}) /\
  fst (main ascii_lower (@rev _) demo_env (demo_searcher [] None 2)) <> 0%Z.
Proof.
  apply (empty_service_name_aborts ascii_lower (@rev _) demo_env (demo_searcher [] None 2)).
  reflexivity.
Defined.

(** C7: when tasks raise, the run still returns normally with exit status
    0; every non-empty chunk has had its task; each exception is logged
    once by the collecting loop; and the reported total is the sum of the
    counts of the tasks that returned. *)
Theorem worker_failures_are_isolated (lower : str -> str)
    (as_completed : list (result nat) -> list (result nat))
    (env : environment) (self : SuricataRuleSearcher) (lines : list str) :
  (forall rs, Permutation (as_completed rs) rs) ->
  service_name self <> [] ->
  readlines env (input_file self) = Return lines ->
  (1 <= num_threads self)%Z ->
  exists chunks,
    _split_lines_evenly lines (num_threads self) = Return chunks /\
    outcome (process_file_in_chunks lower as_completed env self) = Return tt /\
    fst (main lower as_completed env self) = 0%Z /\
    tasks (process_file_in_chunks lower as_completed env self) =
      map snd (work_futures lower env self chunks) /\
    length (tasks (process_file_in_chunks lower as_completed env self)) =
      length (filter nonempty chunks) /\
    main_thread (process_file_in_chunks lower as_completed env self) =
      [Log Searcher INFO
         (Starting (service_name self) (input_file self) (num_threads self));
       ReadLines (input_file self)] ++
      thread_errors (raised (as_completed (map fst (work_futures lower env self chunks)))) ++
      [Log Searcher INFO
         (TotalMatches
            (list_sum (map count_of (map fst (work_futures lower env self chunks))))
            (service_name self))] /\
    Permutation
      (raised (as_completed (map fst (work_futures lower env self chunks))))
      (raised (map fst (work_futures lower env self chunks))).
Proof.
  intros Hperm Hne Hread Hn.
  destruct (split_concat lines (num_threads self) Hn) as (chunks & Hs & _).
  exists chunks. split; [assumption|].
  pose proof (run_spec lower as_completed env self lines chunks Hperm Hne Hread Hn Hs) as R.
  unfold main. rewrite R. cbn [outcome main_thread tasks fst].
  repeat split.
  - unfold work_futures. rewrite !length_map, length_combine, length_seq. lia.
  - apply raised_perm, Hperm.
Qed.

Lemma worker_failures_are_isolated_witness :
  exists chunks,
    _split_lines_evenly demo_lines (num_threads file_searcher) = Return chunks /\
    outcome (process_file_in_chunks ascii_lower (@rev _) faulty_env file_searcher) = Return tt /\
    fst (main ascii_lower (@rev _) faulty_env file_searcher) = 0%Z /\
    tasks (process_file_in_chunks ascii_lower (@rev _) faulty_env file_searcher) =
      map snd (work_futures ascii_lower faulty_env file_searcher chunks) /\
    length (tasks (process_file_in_chunks ascii_lower (@rev _) faulty_env file_searcher)) =
      length (filter nonempty chunks) /\
    main_thread (process_file_in_chunks ascii_lower (@rev _) faulty_env file_searcher) =
      [Log Searcher INFO
         (Starting (service_name file_searcher) (input_file file_searcher)
            (num_threads file_searcher));
       ReadLines (input_file file_searcher)] ++
      thread_errors
        (raised (rev (map fst (work_futures ascii_lower faulty_env file_searcher chunks)))) ++
      [Log Searcher INFO
         (TotalMatches
            (list_sum
               (map count_of
                  (map fst (work_futures ascii_lower faulty_env file_searcher chunks))))
            (service_name file_searcher))] /\
    Permutation
      (raised (rev (map fst (work_futures ascii_lower faulty_env file_searcher chunks))))
      (raised (map fst (work_futures ascii_lower faulty_env file_searcher chunks))).
Proof.
  apply (worker_failures_are_isolated ascii_lower (@rev _) faulty_env file_searcher
           demo_lines).
  - intros rs. apply Permutation_sym, Permutation_rev.
  - discriminate.
  - reflexivity.
  - cbn. lia.
Defined.

(** The run in which the first task cannot open the output file: the
    match of the first chunk is lost, the second chunk is written. *)
Example faulty_run :
  main ascii_lower (@rev _) faulty_env file_searcher =
  (0%Z,
   {| outcome := Return tt;
      main_thread :=
        [Log Searcher INFO (Starting (of_string "service") (of_string "rules") 2);
         ReadLines (of_string "rules");
         Log Root ERROR (ErrorInThread OSError);
         Log Searcher INFO (TotalMatches 1 (of_string "service"))];
      tasks :=
        [[];
         [OpenAppend (of_string "out");
          Write (of_string "out") (rule (of_string "ssh SERVICE login attempt"));
          Close (of_string "out")]] |}).
Proof. vm_compute. reflexivity. Qed.

(** C1: for every N >= 1 the counts that [_find_matches] returns on the
    N chunks of [_split_lines_evenly] add up to the count it returns on
    the whole input; and the run with N threads, when no task meets an
    input/output error, reports that total whatever the order in which
    the tasks complete. *)
Theorem total_independent_of_worker_count (lower : str -> str)
    (as_completed : list (result nat) -> list (result nat))
    (env : environment) (self : SuricataRuleSearcher) (lines : list str) (n : Z) :
  (forall rs, Permutation (as_completed rs) rs) ->
  readlines env (input_file self) = Return lines ->
  (forall i, sound (task_io env i)) ->
  (1 <= n)%Z ->
  exists chunks counts total,
    _split_lines_evenly lines n = Return chunks /\
    Forall2 (fun c k => fst (_find_matches lower self c None) = Return k) chunks counts /\
    fst (_find_matches lower self lines None) = Return total /\
    list_sum counts = total /\
    (service_name self <> [] ->
     main_thread (process_file_in_chunks lower as_completed env (with_threads self n)) =
     [Log Searcher INFO (Starting (service_name self) (input_file self) n);
      ReadLines (input_file self);
      Log Searcher INFO (TotalMatches total (service_name self))]).
Proof.
  intros Hperm Hread Hsound Hn.
  destruct (split_concat lines n Hn) as (chunks & Hs & Hc).
  destruct (service_name self) as [|x target] eqn:Et.
  - exists chunks, (map (fun _ => 0) chunks), 0. split; [assumption|].
    unfold _find_matches. rewrite Et. cbn [py_not fst]. repeat split.
    + clear. induction chunks; constructor; auto.
    + clear. induction chunks; [reflexivity | assumption].
    + intros H. now contradiction H.
  - assert (Hne : service_name self <> []) by (rewrite Et; discriminate).
    rewrite <- Et. 
    exists chunks, (map (fun c => length (filter (counted lower (service_name self)) c)) chunks),
      (length (filter (counted lower (service_name self)) lines)).
    split; [assumption|]. split; [|split; [|split]].
    + clear - Hne. induction chunks as [|c chunks IH]; constructor; [|assumption].
      now rewrite (find_matches_writable lower self c None Hne I).
    + now rewrite (find_matches_writable lower self lines None Hne I).
    + now rewrite count_concat, Hc.
    + intros _.
      assert (Hfst : map fst (work_futures lower env (with_threads self n) chunks) =
                     map (fun c => Return (length (filter (counted lower (service_name self)) c)))
                       (filter nonempty chunks)).
      { unfold work_futures. rewrite map_map.
        apply (map_combine_seq
                 (fun i c => fst (_search_for_service_in_chunk lower (with_threads self n)
                                    (task_io env i) c))).
        intros i c. now rewrite search_sound. }
      rewrite (run_spec lower as_completed env (with_threads self n) lines chunks
                 Hperm Hne Hread Hn Hs).
      cbn [main_thread with_threads service_name input_file num_threads].
      rewrite Hfst.
      pose proof (raised_perm _ _ (Hperm (map (fun c => Return (length (filter (counted lower (service_name self)) c)))
                       (filter nonempty chunks)))) as Hr.
      rewrite raised_returns in Hr. apply Permutation_sym, Permutation_nil in Hr. rewrite Hr.
      rewrite map_map. cbn [count_of thread_errors map app].
      rewrite (sum_nonempty (fun c => length (filter (counted lower (service_name self)) c)))
        by reflexivity.
      now rewrite count_concat, Hc.
Qed.

Lemma total_independent_of_worker_count_witness :
  exists chunks counts total,
    _split_lines_evenly demo_lines 2 = Return chunks /\
    Forall2
      (fun c k =>
         fst (_find_matches ascii_lower (demo_searcher (of_string "service") None 4) c None) =
         Return k)
      chunks counts /\
    fst (_find_matches ascii_lower (demo_searcher (of_string "service") None 4)
           demo_lines None) = Return total /\
    list_sum counts = total /\
    (service_name (demo_searcher (of_string "service") None 4) <> [] ->
     main_thread
       (process_file_in_chunks ascii_lower (@rev _) demo_env
          (with_threads (demo_searcher (of_string "service") None 4) 2)) =
     [Log Searcher INFO
        (Starting (service_name (demo_searcher (of_string "service") None 4))
           (input_file (demo_searcher (of_string "service") None 4)) 2);
      ReadLines (input_file (demo_searcher (of_string "service") None 4));
      Log Searcher INFO
        (TotalMatches total (service_name (demo_searcher (of_string "service") None 4)))]).
Proof.
  apply (total_independent_of_worker_count ascii_lower (@rev _) demo_env
           (demo_searcher (of_string "service") None 4) demo_lines 2).
  - intros rs. apply Permutation_sym, Permutation_rev.
  - reflexivity.
  - intros i. repeat split; reflexivity.
  - lia.
Defined.

(** The total of the demo rule file with 1, 2, 3 and 4 threads. *)
Example totals_of_demo_run :
  map (fun n =>
         last (main_thread
                 (process_file_in_chunks ascii_lower (@rev _) demo_env
                    (demo_searcher (of_string "service") None n)))
           (ReadLines []))
      [1; 2; 3; 4]%Z =
  repeat (Log Searcher INFO (TotalMatches 2 (of_string "service"))) 4.
Proof. vm_compute. reflexivity. Qed.

(** The file variant on the whole demo rule file. *)
Example file_sink_run :
  _search_for_service_in_chunk ascii_lower file_searcher sound_io demo_lines =
  (Return 2,
   [OpenAppend (of_string "out");
    Write (of_string "out") (rule (of_string "ET POLICY SSH Service"));
    Write (of_string "out") (rule (of_string "ssh SERVICE login attempt"));
    Close (of_string "out")]).
Proof. vm_compute. reflexivity. Qed.

(** The long s, which Unicode folds to s, is accepted in the field name. *)
Example extract_long_s :
  extract (of_string "m" ++ [383%N] ++ of_string "G:" ++ quoted (of_string "b")) =
  Some (of_string "b").
Proof. vm_compute. reflexivity. Qed.

(** An empty field is passed over and a later filled one is found. *)
Example extract_after_empty_field :
  extract (of_string "msg:" ++ quoted [] ++ of_string " msg:" ++ quoted (of_string "b")) =
  Some (of_string "b").
Proof. vm_compute. reflexivity. Qed.

(** A target that is only part of the field matches. *)
Example substring_match :
  counted ascii_lower (of_string "http")
    (of_string "msg:" ++ quoted (of_string "HTTP Service X login")) = true /\
  counted ascii_lower (of_string "service x")
    (of_string "msg:" ++ quoted (of_string "Unrelated rule")) = false.
Proof. split; vm_compute; reflexivity. Qed.

(** C9, as stated, fails on a line that has a filled msg field after the
    empty one: the search passes over the empty field, extracts the later
    one, and the line is counted. *)
Lemma empty_msg_then_filled_counterexample :
  occurrence two_field_line 0 [] /\
  extract two_field_line = Some (of_string "ssh") /\
  fst (_find_matches ascii_lower (demo_searcher (of_string "ssh") None 1)
         [two_field_line] None) = Return 1.
Proof.
  split; [|split; vm_compute; reflexivity].
  exists [], (of_string "msg:"), (of_string " msg:" ++ quoted (of_string "ssh")).
  repeat split.
  - repeat constructor.
  - intros [].
Qed.

(** ** Further facts about the scanner *)

Section ScannerOutcomes.

Variable lower : str -> str.

(** A scan that returns has met no failed write: it has counted and
    forwarded every matching line. *)
Lemma find_loop_return target out chunk n k :
  fst (find_loop lower (lower target) out chunk n) = Return k ->
  find_loop lower (lower target) out chunk n =
  (Return (n + length (filter (counted lower target) chunk)),
   map (forwarded out) (filter (counted lower target) chunk)).
Proof.
  revert out n. induction chunk as [|line chunk IH]; intros out n.
  - intros _. cbn. now rewrite Nat.add_0_r.
  - rewrite find_loop_cons. cbn [filter]. unfold counted at 1 3 5.
    fold (counted lower target line).
    destruct (counted lower target line) eqn:Ec; [|apply IH].
    destruct out as [f|].
    + unfold write. destruct (pending f 0); [|discriminate].
      unfold emit. cbn [fst snd]. intros H. rewrite (IH _ _ H).
      cbn [fst snd length map forwarded name]. f_equal. f_equal. lia.
    + unfold emit. cbn [fst snd]. intros H. rewrite (IH _ _ H).
      cbn [fst snd length map forwarded]. f_equal. f_equal. lia.
Qed.


End ScannerOutcomes.

Lemma written_file_block path (l : list str) :
  written (OpenAppend path :: map (Write path) l ++ [Close path]) = l.
Proof.
  cbn [written]. induction l as [|x l IH]; [reflexivity|].
  cbn [map app written]. now rewrite IH.
Qed.

Lemma logged_console_block (l : list str) :
  logged (map (fun line => Log Searcher INFO (Text (rstrip line))) l) = map rstrip l.
Proof. induction l as [|x l IH]; [reflexivity|]. cbn [map logged]. now rewrite IH. Qed.

Lemma find_matches_return lower self chunk out k :
  service_name self <> [] ->
  fst (_find_matches lower self chunk out) = Return k ->
  _find_matches lower self chunk out =
  (Return (length (filter (counted lower (service_name self)) chunk)),
   map (forwarded out) (filter (counted lower (service_name self)) chunk)).
Proof.
  intros Hne. unfold _find_matches. rewrite (py_not_false _ Hne).
  intros H. now rewrite (find_loop_return lower _ _ _ _ _ H).
Qed.

(** X1: A task that returns has not counted in part: its result is the number
    of all matching lines of its chunk, and all of them have reached the
    sink, in order (logged without trailing white space on the console,
    written as they are to the file). *)
Theorem task_returns_full_count (lower : str -> str) (self : SuricataRuleSearcher)
    (io : file_io) (chunk : list str) (k : nat) :
  service_name self <> [] ->
  fst (_search_for_service_in_chunk lower self io chunk) = Return k ->
  k = length (filter (counted lower (service_name self)) chunk) /\
  if no_output_file self
  then logged (snd (_search_for_service_in_chunk lower self io chunk)) =
       map rstrip (filter (counted lower (service_name self)) chunk)
  else written (snd (_search_for_service_in_chunk lower self io chunk)) =
       filter (counted lower (service_name self)) chunk.
Proof.
  intros Hne. unfold _search_for_service_in_chunk.
  destruct (no_output_file self).
  - intros H. rewrite (find_matches_return lower self chunk None k Hne H) in H |- *.
    cbn [fst snd forwarded] in *. split; [congruence | apply logged_console_block].
  - destruct (open_ok io); [|discriminate].
    match goal with
    | |- context [_find_matches lower self chunk ?o] =>
        destruct (fst (_find_matches lower self chunk o)) as [m|e] eqn:E
    end; [|discriminate].
    rewrite (find_matches_return lower self chunk _ m Hne E) in E |- *.
    cbn [fst snd forwarded name] in *.
    destruct (close_ok io); [|discriminate]. cbn [fst snd].
    intros [= <-]. split; [congruence | apply written_file_block].
Qed.

Lemma task_returns_full_count_witness :
  2 = length (filter (counted ascii_lower (service_name file_searcher)) demo_lines) /\
  if no_output_file file_searcher
  then logged (snd (_search_for_service_in_chunk ascii_lower file_searcher sound_io demo_lines)) =
       map rstrip (filter (counted ascii_lower (service_name file_searcher)) demo_lines)
  else written (snd (_search_for_service_in_chunk ascii_lower file_searcher sound_io demo_lines)) =
       filter (counted ascii_lower (service_name file_searcher)) demo_lines.
Proof.
  apply (task_returns_full_count ascii_lower file_searcher sound_io demo_lines 2).
  - discriminate.
  - vm_compute. reflexivity.
Defined.



Lemma find_loop_console_events lower tl chunk n :
  Forall console_event (snd (find_loop lower tl None chunk n)).
Proof.
  revert n. induction chunk as [|line chunk IH]; intros n; [constructor|].
  rewrite find_loop_cons.
  destruct (match extract line with Some c => contains tl (lower c) | None => false end);
    [|apply IH].
  unfold emit. cbn [snd]. constructor; [|apply IH]. now eexists.
Qed.

Lemma find_loop_file_events lower tl chunk :
  forall f n,
    Forall (fun e => exists data, e = Write (name f) data)
      (snd (find_loop lower tl (Some f) chunk n)).
Proof.
  induction chunk as [|line chunk IH]; intros f n; [constructor|].
  rewrite find_loop_cons.
  destruct (match extract line with Some c => contains tl (lower c) | None => false end);
    [|apply IH].
  unfold write. destruct (pending f 0); [|constructor].
  unfold emit. cbn [snd]. constructor; [now eexists|].
  exact (IH {| name := name f; pending := fun k => pending f (S k) |} (S n)).
Qed.

(** X3: the two sinks are kept apart whatever happens: a task of the console
    variant does nothing but log lines on the class logger and never opens
    or writes a file; a task of the file variant logs no line and touches
    no file but its output file. *)
Theorem sinks_are_kept_apart (lower : str -> str) (self : SuricataRuleSearcher)
    (io : file_io) (chunk : list str) :
  (no_output_file self = true ->
   Forall console_event (snd (_search_for_service_in_chunk lower self io chunk))) /\
  (forall path,
     output_file self = Some path -> path <> [] ->
     Forall (file_event path) (snd (_search_for_service_in_chunk lower self io chunk))).
Proof.
  split.
  - intros Hno. unfold _search_for_service_in_chunk, _find_matches. rewrite Hno.
    destruct (py_not (service_name self)); [constructor | apply find_loop_console_events].
  - intros path Hout Hpath.
    unfold _search_for_service_in_chunk, no_output_file.
    rewrite Hout, (py_not_false _ Hpath).
    destruct (open_ok io); [|constructor].
    assert (Hw : Forall (file_event path)
                   (snd (_find_matches lower self chunk
                           (Some {| name := path; pending := write_ok io |})))).
    { unfold _find_matches. destruct (py_not (service_name self)); [constructor|].
      eapply Forall_impl; [|apply find_loop_file_events].
      cbn [name]. intros e (data & ->). right. left. now exists data. }
    assert (Hc : Forall (file_event path) [Close path])
      by (constructor; [right; now right | constructor]).
    destruct (fst (_find_matches lower self chunk _)).
    + destruct (close_ok io); cbn [snd]; constructor; try (now left);
        try assumption; apply Forall_app; now split.
    + cbn [snd]. constructor; [now left|]. apply Forall_app; now split.
Qed.

(** X4: A line on which no msg field opens (no msg: in any case followed by a
    double quote) is never counted, whatever the service name and the sink:
    the extractor yields nothing on it. *)
Theorem no_field_never_matches (lower : str -> str) (self : SuricataRuleSearcher)
    (line : str) (out : option TextIO) :
  (forall j, ~ opens_field line j) ->
  extract line = None /\
  _find_matches lower self [line] out = (Return 0, []).
Proof.
  intros Hno.
  assert (E : extract line = None).
  { rewrite extract_first_field. destruct (first_field line) as [c|] eqn:E; [|reflexivity].
    apply first_field_some in E. destruct E as (k & Hk & _).
    apply filled_occurrence_field_at in Hk. destruct Hk as (Hk & _).
    exfalso. exact (Hno k (occurrence_opens _ _ _ Hk)). }
  split; [assumption|].
  unfold _find_matches. destruct (py_not (service_name self)); [reflexivity|].
  rewrite find_loop_cons, E. reflexivity.
Qed.

Lemma no_field_never_matches_witness :
  extract (of_string "alert tcp any any -> any any (sid:1;)") = None /\
  _find_matches ascii_lower (demo_searcher (of_string "tcp") None 1)
    [of_string "alert tcp any any -> any any (sid:1;)"] None = (Return 0, []).
Proof.
  apply (no_field_never_matches ascii_lower (demo_searcher (of_string "tcp") None 1)
           (of_string "alert tcp any any -> any any (sid:1;)") None).
  intros j (pre & tok & rest & E & _).
  assert (H : In dq (of_string "alert tcp any any -> any any (sid:1;)")).
  { rewrite E. apply in_or_app. right. apply in_or_app. right. now left. }
  vm_compute in H. intuition discriminate.
Defined.

(** ** Further facts about the partition *)

Lemma slice_nat {A} (l : list A) (a b : nat) :
  slice l (Z.of_nat a) (Z.of_nat b) = firstn (b - a) (skipn a l).
Proof.
  unfold slice, slice_index.
  destruct (Z.ltb_spec (Z.of_nat a) 0); [lia|].
  destruct (Z.ltb_spec (Z.of_nat b) 0); [lia|].
  destruct (Nat.le_gt_cases (length l) a) as [Ha|Ha].
  - rewrite (Z.min_r (Z.of_nat a)) by lia. rewrite Nat2Z.id.
    rewrite skipn_all, (skipn_all2 l) by lia. now rewrite !firstn_nil.
  - rewrite (Z.min_l (Z.of_nat a)) by lia. rewrite Nat2Z.id.
    destruct (Nat.le_gt_cases (length l) b) as [Hb|Hb].
    + rewrite Z.min_r by lia.
      rewrite !firstn_all2; [reflexivity | |]; rewrite length_skipn; lia.
    + rewrite Z.min_l by lia. f_equal. lia.
Qed.

Lemma singletons {A} (l : list A) :
  map (fun j => firstn (S j - j) (skipn j l)) (seq 0 (length l)) = map (fun x => [x]) l.
Proof.
  induction l as [|x l IH]; [reflexivity|].
  cbn [length seq map]. rewrite <- seq_shift, map_map. f_equal.
  rewrite <- IH. apply map_ext. intros j.
  replace (S (S j) - S j) with (S j - j) by lia. reflexivity.
Qed.

Lemma map_constant {A B} (f : A -> B) (c : B) (l : list A) :
  (forall x, In x l -> f x = c) -> map f l = repeat c (length l).
Proof.
  induction l as [|x l IH]; intros H; [reflexivity|].
  cbn [map length repeat]. f_equal; [apply H; now left|].
  apply IH. intros y Hy. apply H. now right.
Qed.

Lemma split_sparse (lines : list str) (n : Z) :
  (1 <= n)%Z ->
  (Z.of_nat (length lines) <= n)%Z ->
  _split_lines_evenly lines n =
  Return (map (fun line => [line]) lines ++ repeat [] (Z.to_nat n - length lines)).
Proof.
  intros Hn Hl. rewrite (split_chunks lines n Hn). f_equal.
  destruct (avg_remainder lines n Hn) as (Ha & Hr & Hd).
  set (avg := (Z.of_nat (length lines) / n)%Z) in *.
  set (remainder := (Z.of_nat (length lines) mod n)%Z) in *.
  assert (Hcs : forall j, j <= Z.to_nat n ->
                  chunk_start avg remainder (Z.of_nat j) =
                  Z.of_nat (Nat.min j (length lines))).
  { intros j Hj. unfold chunk_start.
    assert (Hcase : (avg = 0 \/ (avg = 1 /\ remainder = 0))%Z) by nia.
    destruct Hcase as [E | (E1 & E2)].
    - rewrite E in *. lia.
    - rewrite E1, E2 in *. lia. }
  replace (Z.to_nat n) with (length lines + (Z.to_nat n - length lines)) at 1 by lia.
  rewrite seq_app, map_app. f_equal.
  - rewrite <- singletons. apply map_ext_in. intros j Hj. apply in_seq in Hj.
    rewrite !Hcs by lia. rewrite slice_nat. f_equal; [lia | f_equal; lia].
  - cbn [Nat.add].
    rewrite (map_constant _ [] (seq (length lines) (Z.to_nat n - length lines))).
    + now rewrite length_seq.
    + intros j Hj. apply in_seq in Hj. rewrite !Hcs by lia. rewrite slice_nat.
      replace (Nat.min (S j) (length lines) - Nat.min j (length lines)) with 0 by lia.
      reflexivity.
Qed.

(** X5: with no more lines than threads, every line is a chunk of its own
    and the chunks that are left over are empty. *)
Theorem split_fewer_lines_than_threads (lines : list str) (n : Z) :
  (1 <= n)%Z ->
  (Z.of_nat (length lines) <= n)%Z ->
  _split_lines_evenly lines n =
  Return (map (fun line => [line]) lines ++ repeat [] (Z.to_nat n - length lines)).
Proof. exact (split_sparse lines n). Qed.

Lemma split_fewer_lines_than_threads_witness :
  _split_lines_evenly [of_string "a"; of_string "b"] 4 =
  Return (map (fun line => [line]) [of_string "a"; of_string "b"] ++
          repeat [] (Z.to_nat 4 - length [of_string "a"; of_string "b"])).
Proof.
  apply (split_fewer_lines_than_threads [of_string "a"; of_string "b"] 4).
  - lia.
  - cbn. lia.
Defined.


Lemma split_dense (lines : list str) (n : Z) (chunks : list (list str)) :
  (1 <= n)%Z ->
  (n <= Z.of_nat (length lines))%Z ->
  _split_lines_evenly lines n = Return chunks ->
  length chunks = Z.to_nat n /\ Forall (fun c => nonempty c = true) chunks.
Proof.
  intros Hn Hl. rewrite (split_chunks lines n Hn). intros [= <-].
  split; [now rewrite length_map, length_seq|].
  destruct (avg_remainder lines n Hn) as (Ha & Hr & Hd).
  apply Forall_forall. intros c Hc. apply in_map_iff in Hc.
  destruct Hc as (i & <- & Hi). apply in_seq in Hi.
  pose proof (chunk_start_0 lines n Hn) as H0.
  pose proof (chunk_start_n lines n Hn) as Hlen.
  pose proof (chunk_start_mono lines n Hn 0 (Z.of_nat i)) as M1.
  pose proof (chunk_start_mono lines n Hn (Z.of_nat i) (Z.of_nat (S i))) as M2.
  pose proof (chunk_start_mono lines n Hn (Z.of_nat (S i)) n) as M3.
  match goal with |- nonempty ?c = true => assert (Hc : 1 <= length c) end.
  { change (Z.pos (Pos.of_succ_nat i)) with (Z.of_nat (S i)).
    rewrite slice_length by lia. unfold chunk_start.
    assert (1 <= Z.of_nat (length lines) / n)%Z by (apply Z.div_le_lower_bound; lia).
    lia. }
  match goal with |- nonempty ?c = true => destruct c; [cbn in Hc; lia | reflexivity] end.
Qed.

Lemma filter_nonempty_sparse {A} (l : list A) k :
  filter nonempty (map (fun x => [x]) l ++ repeat [] k) = map (fun x => [x]) l.
Proof.
  rewrite filter_app.
  replace (filter nonempty (repeat (@nil A) k)) with (@nil (list A))
    by (induction k; [reflexivity | assumption]).
  rewrite app_nil_r. induction l as [|x l IH]; [reflexivity|].
  cbn [map filter nonempty]. now rewrite IH.
Qed.

Lemma filter_all {A} (p : A -> bool) (l : list A) :
  Forall (fun x => p x = true) l -> filter p l = l.
Proof.
  induction 1 as [|x l Hx _ IH]; [reflexivity|]. cbn [filter]. now rewrite Hx, IH.
Qed.

Lemma nonempty_chunks_count (lines : list str) (n : Z) (chunks : list (list str)) :
  (1 <= n)%Z ->
  _split_lines_evenly lines n = Return chunks ->
  length (filter nonempty chunks) = Nat.min (length lines) (Z.to_nat n).
Proof.
  intros Hn Hs. destruct (Z.le_gt_cases (Z.of_nat (length lines)) n) as [Hl|Hl].
  - rewrite (split_sparse lines n Hn Hl) in Hs. injection Hs as <-.
    rewrite filter_nonempty_sparse, length_map. lia.
  - destruct (split_dense lines n chunks Hn ltac:(lia) Hs) as (Hlen & Hall).
    rewrite (filter_all _ _ Hall). lia.
Qed.

(** ** Further facts about a run *)

(** X6: A run never has more tasks than lines nor than threads: with N >= 1
    threads and L lines it submits exactly min(L, N) tasks. *)
Theorem tasks_min_lines_threads (lower : str -> str)
    (as_completed : list (result nat) -> list (result nat))
    (env : environment) (self : SuricataRuleSearcher) (lines : list str) :
  (forall rs, Permutation (as_completed rs) rs) ->
  service_name self <> [] ->
  readlines env (input_file self) = Return lines ->
  (1 <= num_threads self)%Z ->
  length (tasks (process_file_in_chunks lower as_completed env self)) =
  Nat.min (length lines) (Z.to_nat (num_threads self)).
Proof.
  intros Hperm Hne Hread Hn.
  destruct (split_concat lines (num_threads self) Hn) as (chunks & Hs & _).
  rewrite (run_spec lower as_completed env self lines chunks Hperm Hne Hread Hn Hs).
  cbn [tasks]. unfold work_futures.
  rewrite !length_map, length_combine, length_seq, Nat.min_id.
  exact (nonempty_chunks_count lines (num_threads self) chunks Hn Hs).
Qed.

Lemma tasks_min_lines_threads_witness :
  length (tasks (process_file_in_chunks ascii_lower (@rev _) demo_env
                   (demo_searcher (of_string "service") None 5))) =
  Nat.min (length demo_lines)
    (Z.to_nat (num_threads (demo_searcher (of_string "service") None 5))).
Proof.
  apply (tasks_min_lines_threads ascii_lower (@rev _) demo_env
           (demo_searcher (of_string "service") None 5) demo_lines).
  - intros rs. apply Permutation_sym, Permutation_rev.
  - discriminate.
  - reflexivity.
  - cbn. lia.
Defined.

(** X7: when the input file cannot be read the run stops there: after the
    start record and the attempt to read, a missing file or an I/O error
    is logged on the class logger and ends the process with status 1; any
    other exception is logged by [main] as unexpected, with status 1 as
    well.  No task is run and no total is logged. *)
Theorem unreadable_input_aborts (lower : str -> str)
    (as_completed : list (result nat) -> list (result nat))
    (env : environment) (self : SuricataRuleSearcher) (e : exn) :
  service_name self <> [] ->
  readlines env (input_file self) = Raise e ->
  is_Exception e = true ->
  main lower as_completed env self =
  (1%Z,
   {| outcome :=
        match e with
        | FileNotFoundError | OSError => Raise (SystemExit 1)
        | _ => Raise e
        end;
      main_thread :=
        [Log Searcher INFO
           (Starting (service_name self) (input_file self) (num_threads self));
         ReadLines (input_file self);
         match e with
         | FileNotFoundError => Log Searcher ERROR (FileNotFound (input_file self))
         | OSError => Log Searcher ERROR (IOErrorReading (input_file self))
         | _ => Log Root ERROR (UnexpectedError e)
         end];
      tasks := [] |}).
Proof.
  intros Hne Hread He.
  unfold main, process_file_in_chunks, _validate_service_name, load_file.
  rewrite (py_not_false _ Hne), Hread.
  destruct e; try discriminate; reflexivity.
Qed.

(** The environment in which the rule file does not exist. *)
Lemma unreadable_input_aborts_witness :
  main ascii_lower (@rev _)
    {| readlines := fun _ => Raise FileNotFoundError; task_io := fun _ => sound_io |}
    (demo_searcher (of_string "service") None 2) =
  (1%Z,
   {| outcome := Raise (SystemExit 1);
      main_thread :=
        [Log Searcher INFO (Starting (of_string "service") (of_string "rules") 2);
         ReadLines (of_string "rules");
         Log Searcher ERROR (FileNotFound (of_string "rules"))];
      tasks := [] |}).
Proof.
  apply (unreadable_input_aborts ascii_lower (@rev _)
           {| readlines := fun _ => Raise FileNotFoundError; task_io := fun _ => sound_io |}
           (demo_searcher (of_string "service") None 2) FileNotFoundError).
  - discriminate.
  - reflexivity.
  - reflexivity.
Defined.

(** X8: A number of threads that is not positive is found out only after the
    input file has been read: 0 raises ZeroDivisionError in the partition
    and a negative number raises ValueError when the pool is created (the
    partition has then returned no chunk at all).  [main] logs the
    exception as unexpected and the process ends with status 1; no task is
    run and no total is logged. *)
Theorem bad_thread_count_aborts (lower : str -> str)
    (as_completed : list (result nat) -> list (result nat))
    (env : environment) (self : SuricataRuleSearcher) (lines : list str) :
  service_name self <> [] ->
  readlines env (input_file self) = Return lines ->
  (num_threads self <= 0)%Z ->
  _split_lines_evenly lines (num_threads self) =
    (if (num_threads self =? 0)%Z then Raise ZeroDivisionError else Return []) /\
  main lower as_completed env self =
  (1%Z,
   {| outcome :=
        Raise (if (num_threads self =? 0)%Z then ZeroDivisionError else ValueError);
      main_thread :=
        [Log Searcher INFO
           (Starting (service_name self) (input_file self) (num_threads self));
         ReadLines (input_file self);
         Log Root ERROR
           (UnexpectedError
              (if (num_threads self =? 0)%Z then ZeroDivisionError else ValueError))];
      tasks := [] |}).
Proof.
  intros Hne Hread Hn.
  assert (Hs : _split_lines_evenly lines (num_threads self) =
               (if (num_threads self =? 0)%Z then Raise ZeroDivisionError else Return [])).
  { unfold _split_lines_evenly, range.
    destruct (Z.eqb_spec (num_threads self) 0); [reflexivity|].
    replace (Z.to_nat (num_threads self)) with 0 by lia. reflexivity. }
  split; [exact Hs|].
  unfold main, process_file_in_chunks, _validate_service_name, load_file.
  rewrite (py_not_false _ Hne), Hread. cbn [fst snd negb emit app]. rewrite Hs.
  destruct (Z.eqb_spec (num_threads self) 0); [reflexivity|].
  destruct (Z.leb_spec (num_threads self) 0); [reflexivity | lia].
Qed.

Lemma bad_thread_count_aborts_witness :
  _split_lines_evenly demo_lines (num_threads (demo_searcher (of_string "service") None 0)) =
    (if (num_threads (demo_searcher (of_string "service") None 0) =? 0)%Z
     then Raise ZeroDivisionError else Return []) /\
  main ascii_lower (@rev _) demo_env (demo_searcher (of_string "service") None 0) =
  (1%Z,
   {| outcome :=
        Raise (if (num_threads (demo_searcher (of_string "service") None 0) =? 0)%Z
               then ZeroDivisionError else ValueError);
      main_thread :=
        [Log Searcher INFO
           (Starting (service_name (demo_searcher (of_string "service") None 0))
              (input_file (demo_searcher (of_string "service") None 0))
              (num_threads (demo_searcher (of_string "service") None 0)));
         ReadLines (input_file (demo_searcher (of_string "service") None 0));
         Log Root ERROR
           (UnexpectedError
              (if (num_threads (demo_searcher (of_string "service") None 0) =? 0)%Z
               then ZeroDivisionError else ValueError))];
      tasks := [] |}).
Proof.
  apply (bad_thread_count_aborts ascii_lower (@rev _) demo_env
           (demo_searcher (of_string "service") None 0) demo_lines).
  - discriminate.
  - reflexivity.
  - cbn. lia.
Defined.

Lemma search_count_le lower self io chunk :
  service_name self <> [] ->
  count_of (fst (_search_for_service_in_chunk lower self io chunk)) <=
  length (filter (counted lower (service_name self)) chunk).
Proof.
  intros Hne.
  destruct (fst (_search_for_service_in_chunk lower self io chunk)) as [k|e] eqn:E;
    cbn [count_of]; [|lia].
  unfold _search_for_service_in_chunk in E.
  assert (H : forall out m,
             fst (_find_matches lower self chunk out) = Return m ->
             m = length (filter (counted lower (service_name self)) chunk)).
  { intros out m Hm. rewrite (find_matches_return lower self chunk out m Hne Hm) in Hm.
    cbn [fst] in Hm. congruence. }
  destruct (no_output_file self); [rewrite (H _ _ E); lia|].
  destruct (open_ok io); [|discriminate].
  match type of E with
  | context [_find_matches lower self chunk ?o] =>
      destruct (fst (_find_matches lower self chunk o)) as [m|e] eqn:Em
  end; [|discriminate].
  destruct (close_ok io); [|discriminate]. cbn [fst] in E.
  injection E as <-. rewrite (H _ _ Em). lia.
Qed.

Lemma list_sum_le {A} (f g : A -> nat) (l : list A) :
  (forall x, f x <= g x) -> list_sum (map f l) <= list_sum (map g l).
Proof.
  intros H. induction l as [|x l IH]; [reflexivity|].
  cbn [map]. rewrite !list_sum_cons. specialize (H x). lia.
Qed.

Lemma sum_over_tasks_le {A} (F : nat -> A -> nat) (G : A -> nat) (l : list A) :
  (forall i x, F i x <= G x) ->
  forall a,
    list_sum (map (fun ix => F (fst ix) (snd ix)) (combine (seq a (length l)) l)) <=
    list_sum (map G l).
Proof.
  intros H. induction l as [|x l IH]; intros a; [reflexivity|].
  cbn [length seq combine map fst snd]. rewrite !list_sum_cons.
  specialize (H a x). specialize (IH (S a)). lia.
Qed.

(** X9: errors in tasks can only lower the total: whatever the tasks meet, a
    total that the run logs is at most the number of matching lines of
    the input. *)
Theorem total_never_exceeds_matches (lower : str -> str)
    (as_completed : list (result nat) -> list (result nat))
    (env : environment) (self : SuricataRuleSearcher) (lines : list str)
    (total : nat) (target : str) :
  (forall rs, Permutation (as_completed rs) rs) ->
  service_name self <> [] ->
  readlines env (input_file self) = Return lines ->
  (1 <= num_threads self)%Z ->
  In (Log Searcher INFO (TotalMatches total target))
     (main_thread (process_file_in_chunks lower as_completed env self)) ->
  total <= length (filter (counted lower (service_name self)) lines).
Proof.
  intros Hperm Hne Hread Hn.
  destruct (split_concat lines (num_threads self) Hn) as (chunks & Hs & Hc).
  rewrite (run_spec lower as_completed env self lines chunks Hperm Hne Hread Hn Hs).
  cbn [main_thread]. intros Hin.
  apply in_app_or in Hin. destruct Hin as [Hin|Hin].
  { cbn in Hin. destruct Hin as [H|[H|[]]]; discriminate. }
  apply in_app_or in Hin. destruct Hin as [Hin|Hin].
  { unfold thread_errors in Hin. apply in_map_iff in Hin.
    destruct Hin as (e & H & _). discriminate. }
  destruct Hin as [H|[]]. injection H as <- _.
  unfold work_futures. rewrite !map_map.
  etransitivity.
  - apply (sum_over_tasks_le
             (fun i c => count_of (fst (_search_for_service_in_chunk lower self
                                          (task_io env i) c)))
             (fun c => length (filter (counted lower (service_name self)) c))).
    intros i c. now apply search_count_le.
  - rewrite (sum_nonempty (fun c => length (filter (counted lower (service_name self)) c)))
      by reflexivity.
    rewrite count_concat, Hc. reflexivity.
Qed.

Lemma total_never_exceeds_matches_witness :
  1 <= length (filter (counted ascii_lower (service_name file_searcher)) demo_lines).
Proof.
  apply (total_never_exceeds_matches ascii_lower (@rev _) faulty_env file_searcher
           demo_lines 1 (of_string "service")).
  - intros rs. apply Permutation_sym, Permutation_rev.
  - discriminate.
  - reflexivity.
  - cbn. lia.
  - vm_compute. right. right. right. left. reflexivity.
Defined.

Lemma search_sound_run lower self io chunk :
  service_name self <> [] -> sound io ->
  _search_for_service_in_chunk lower self io chunk =
  (Return (length (filter (counted lower (service_name self)) chunk)),
   if no_output_file self
   then map (fun line => Log Searcher INFO (Text (rstrip line)))
          (filter (counted lower (service_name self)) chunk)
   else
     let path := match output_file self with Some p => p | None => [] end in
     OpenAppend path ::
     map (Write path) (filter (counted lower (service_name self)) chunk) ++ [Close path]).
Proof.
  intros Hne (Hopen & Hclose & Hw). unfold _search_for_service_in_chunk.
  destruct (no_output_file self).
  - now rewrite (find_matches_writable lower self chunk None Hne I).
  - rewrite Hopen, find_matches_writable; [|assumption|intros k _; apply Hw].
    cbn [fst snd forwarded name]. now rewrite Hclose.
Qed.

Lemma filter_concat {A} (f : A -> bool) (l : list (list A)) :
  concat (map (filter f) l) = filter f (concat l).
Proof.
  induction l as [|c l IH]; [reflexivity|].
  cbn [map concat]. now rewrite filter_app, IH.
Qed.

Lemma concat_nonempty {A} (l : list (list A)) : concat (filter nonempty l) = concat l.
Proof.
  induction l as [|c l IH]; [reflexivity|].
  destruct c; cbn [filter nonempty concat app]; now rewrite IH.
Qed.

Lemma concat_work {A B} (g : list A -> list B) (l : list (list A)) :
  g [] = [] -> concat (map g (filter nonempty l)) = concat (map g l).
Proof.
  intros Hg. induction l as [|c l IH]; [reflexivity|].
  destruct c; cbn [filter nonempty map concat]; rewrite IH; [now rewrite Hg | reflexivity].
Qed.

Lemma concat_filtered {A B} (f : A -> bool) (h : A -> B) (l : list (list A)) :
  concat (map (fun c => map h (filter f c)) l) = map h (filter f (concat l)).
Proof.
  induction l as [|c l IH]; [reflexivity|].
  cbn [map concat]. now rewrite filter_app, map_app, IH.
Qed.

Lemma map_tasks {A B} (F : nat -> A -> B) (G : A -> B) (l : list A) :
  (forall i x, F i x = G x) ->
  map (fun ix => F (fst ix) (snd ix)) (combine (seq 0 (length l)) l) = map G l.
Proof. intros H. now apply map_combine_seq. Qed.

(** X10: when no task meets an input/output error, the output of the run is
    the matching lines of the input, each once and in the order of the
    input: the writes of the tasks, taken task after task, are those
    lines as they are (file variant), and the texts they log are those
    lines without their trailing white space (console variant). *)
Theorem outputs_are_the_matching_lines (lower : str -> str)
    (as_completed : list (result nat) -> list (result nat))
    (env : environment) (self : SuricataRuleSearcher) (lines : list str) :
  (forall rs, Permutation (as_completed rs) rs) ->
  service_name self <> [] ->
  readlines env (input_file self) = Return lines ->
  (1 <= num_threads self)%Z ->
  (forall i, sound (task_io env i)) ->
  if no_output_file self
  then concat (map logged (tasks (process_file_in_chunks lower as_completed env self))) =
       map rstrip (filter (counted lower (service_name self)) lines) /\
       concat (map written (tasks (process_file_in_chunks lower as_completed env self))) = []
  else concat (map written (tasks (process_file_in_chunks lower as_completed env self))) =
       filter (counted lower (service_name self)) lines /\
       concat (map logged (tasks (process_file_in_chunks lower as_completed env self))) = [].
Proof.
  intros Hperm Hne Hread Hn Hsound.
  destruct (split_concat lines (num_threads self) Hn) as (chunks & Hs & Hc).
  rewrite (run_spec lower as_completed env self lines chunks Hperm Hne Hread Hn Hs).
  cbn [tasks]. unfold work_futures. rewrite !map_map.
  destruct (no_output_file self) eqn:Eno.
  - rewrite (map_tasks
               (fun i c => logged (snd (_search_for_service_in_chunk lower self
                                          (task_io env i) c)))
               (fun c => map rstrip (filter (counted lower (service_name self)) c))).
    + rewrite (map_tasks
                 (fun i c => written (snd (_search_for_service_in_chunk lower self
                                             (task_io env i) c)))
                 (fun _ => [])).
      * split.
        -- rewrite (concat_work
                      (fun c => map rstrip (filter (counted lower (service_name self)) c)))
             by reflexivity.
           now rewrite concat_filtered, Hc.
        -- clear. induction (filter nonempty chunks); [reflexivity | assumption].
      * intros i c. rewrite (search_sound_run lower self _ c Hne (Hsound i)), Eno.
        cbn [snd]. clear. induction (filter _ c); [reflexivity | assumption].
    + intros i c. rewrite (search_sound_run lower self _ c Hne (Hsound i)), Eno.
      cbn [snd]. apply logged_console_block.
  - rewrite (map_tasks
               (fun i c => written (snd (_search_for_service_in_chunk lower self
                                           (task_io env i) c)))
               (fun c => filter (counted lower (service_name self)) c)).
    + rewrite (map_tasks
                 (fun i c => logged (snd (_search_for_service_in_chunk lower self
                                            (task_io env i) c)))
                 (fun _ => [])).
      * split.
        -- rewrite (concat_work (filter (counted lower (service_name self))))
             by reflexivity.
           now rewrite filter_concat, Hc.
        -- clear. induction (filter nonempty chunks); [reflexivity | assumption].
      * intros i c. rewrite (search_sound_run lower self _ c Hne (Hsound i)), Eno.
        cbn [snd logged]. clear.
        induction (filter _ c); [reflexivity | assumption].
    + intros i c. rewrite (search_sound_run lower self _ c Hne (Hsound i)), Eno.
      cbn [snd]. apply written_file_block.
Qed.

Lemma outputs_are_the_matching_lines_witness :
  concat (map written (tasks (process_file_in_chunks ascii_lower (@rev _) demo_env
                                file_searcher))) =
  filter (counted ascii_lower (service_name file_searcher)) demo_lines /\
  concat (map logged (tasks (process_file_in_chunks ascii_lower (@rev _) demo_env
                               file_searcher))) = [].
Proof.
  apply (outputs_are_the_matching_lines ascii_lower (@rev _) demo_env file_searcher
           demo_lines).
  - intros rs. apply Permutation_sym, Permutation_rev.
  - discriminate.
  - reflexivity.
  - cbn. lia.
  - intros i. repeat split; reflexivity.
Defined.

Lemma search_same_sink lower s1 s2 io chunk :
  service_name s1 = service_name s2 ->
  no_output_file s1 = true -> no_output_file s2 = true ->
  _search_for_service_in_chunk lower s1 io chunk =
  _search_for_service_in_chunk lower s2 io chunk.
Proof.
  intros Hs H1 H2. unfold _search_for_service_in_chunk, _find_matches.
  now rewrite H1, H2, Hs.
Qed.

Lemma submit_loop_same_sink lower env s1 s2 chunks :
  service_name s1 = service_name s2 ->
  no_output_file s1 = true -> no_output_file s2 = true ->
  forall futures,
    submit_loop lower env s1 chunks futures = submit_loop lower env s2 chunks futures.
Proof.
  intros Hs H1 H2. induction chunks as [|c chunks IH]; intros futures; [reflexivity|].
  cbn [submit_loop]. destruct c; [apply IH|].
  rewrite (search_same_sink lower s1 s2 _ _ Hs H1 H2). apply IH.
Qed.

Lemma main_same_sink lower as_completed env s1 s2 :
  input_file s1 = input_file s2 ->
  service_name s1 = service_name s2 ->
  num_threads s1 = num_threads s2 ->
  no_output_file s1 = true -> no_output_file s2 = true ->
  main lower as_completed env s1 = main lower as_completed env s2.
Proof.
  intros Hi Hs Hn H1 H2.
  unfold main, process_file_in_chunks, _validate_service_name, load_file.
  rewrite Hi, Hs, Hn.
  destruct (py_not (service_name s2)); [reflexivity|]. cbn [fst snd negb emit].
  destruct (readlines env (input_file s2)) as [lines|e]; [|destruct e; reflexivity].
  cbn [fst snd].
  destruct (_split_lines_evenly lines (num_threads s2)) as [chunks|e]; [|reflexivity].
  destruct (num_threads s2 <=? 0)%Z; [reflexivity|].
  now rewrite (submit_loop_same_sink lower env s1 s2 chunks Hs H1 H2).
Qed.

(** X11: An output argument that is the empty path means the console: the run
    is in every respect the run without an output file, and no file is
    opened. *)
Theorem empty_output_path_is_console (lower : str -> str)
    (as_completed : list (result nat) -> list (result nat))
    (env : environment) (self : SuricataRuleSearcher) :
  main lower as_completed env (with_output self (Some [])) =
  main lower as_completed env (with_output self None).
Proof.
  apply main_same_sink; reflexivity.
Qed.

Lemma filter_nonempty_repeat {A} k : filter nonempty (repeat (@nil A) k) = [].
Proof. induction k as [|k IH]; [reflexivity | exact IH]. Qed.

(** X12: An empty input file is not an error: with a service name and N >= 1
    threads the run submits no task, logs a total of 0 and ends with exit
    status 0. *)
Theorem empty_input_reports_zero (lower : str -> str)
    (as_completed : list (result nat) -> list (result nat))
    (env : environment) (self : SuricataRuleSearcher) :
  (forall rs, Permutation (as_completed rs) rs) ->
  service_name self <> [] ->
  readlines env (input_file self) = Return [] ->
  (1 <= num_threads self)%Z ->
  main lower as_completed env self =
  (0%Z,
   {| outcome := Return tt;
      main_thread :=
        [Log Searcher INFO
           (Starting (service_name self) (input_file self) (num_threads self));
         ReadLines (input_file self);
         Log Searcher INFO (TotalMatches 0 (service_name self))];
      tasks := [] |}).
Proof.
  intros Hperm Hne Hread Hn.
  pose proof (split_sparse [] (num_threads self) Hn ltac:(cbn; lia)) as Hs.
  cbn [map app length] in Hs.
  unfold main.
  rewrite (run_spec lower as_completed env self [] _ Hperm Hne Hread Hn Hs).
  cbn [outcome]. unfold work_futures.
  rewrite filter_nonempty_repeat.
  cbn [length seq combine map list_sum].
  rewrite (Permutation_nil (Permutation_sym (Hperm []))). reflexivity.
Qed.

Lemma empty_input_reports_zero_witness :
  main ascii_lower (@rev _)
    {| readlines := fun _ => Return []; task_io := fun _ => sound_io |}
    (demo_searcher (of_string "service") None 4) =
  (0%Z,
   {| outcome := Return tt;
      main_thread :=
        [Log Searcher INFO (Starting (of_string "service") (of_string "rules") 4);
         ReadLines (of_string "rules");
         Log Searcher INFO (TotalMatches 0 (of_string "service"))];
      tasks := [] |}).
Proof.
  apply (empty_input_reports_zero ascii_lower (@rev _)
           {| readlines := fun _ => Return []; task_io := fun _ => sound_io |}
           (demo_searcher (of_string "service") None 4)).
  - intros rs. apply Permutation_sym, Permutation_rev.
  - discriminate.
  - reflexivity.
  - cbn. lia.
Defined.

(** X13: the ways a run can end.  An empty service name, a missing input file
    and an I/O error on reading end it with [SystemExit(1)]; another
    exception of the reading, the division by zero threads and the pool
    refusing a negative number of threads come out as they are; in every
    other case the run returns, whatever its tasks raised.  The second
    validation, whose exit call could only raise AttributeError, is never
    reached. *)
Theorem run_outcome_table (lower : str -> str)
    (as_completed : list (result nat) -> list (result nat))
    (env : environment) (self : SuricataRuleSearcher) :
  (forall rs, Permutation (as_completed rs) rs) ->
  outcome (process_file_in_chunks lower as_completed env self) =
  if py_not (service_name self) then Raise (SystemExit 1)
  else
    match readlines env (input_file self) with
    | Raise FileNotFoundError | Raise OSError => Raise (SystemExit 1)
    | Raise e => Raise e
    | Return lines =>
        if (num_threads self =? 0)%Z then Raise ZeroDivisionError
        else if (num_threads self <? 0)%Z then Raise ValueError
        else Return tt
    end.
Proof.
  intros Hperm. destruct (py_not (service_name self)) eqn:Ep.
  - unfold process_file_in_chunks, _validate_service_name. rewrite Ep. reflexivity.
  - assert (Hne : service_name self <> []) by (intros E; rewrite E in Ep; discriminate).
    destruct (readlines env (input_file self)) as [lines|e] eqn:Er.
    + destruct (Z.eqb_spec (num_threads self) 0) as [E0|E0];
        [|destruct (Z.ltb_spec (num_threads self) 0) as [Hlt|Hge]].
      * unfold process_file_in_chunks, _validate_service_name, load_file, _split_lines_evenly.
        rewrite Ep, Er, E0. reflexivity.
      * unfold process_file_in_chunks, _validate_service_name, load_file, _split_lines_evenly.
        rewrite Ep, Er. cbn [fst snd negb emit].
        destruct (Z.eqb_spec (num_threads self) 0); [lia|].
        destruct (Z.leb_spec (num_threads self) 0); [reflexivity | lia].
      * assert (Hn : (1 <= num_threads self)%Z) by lia.
        destruct (split_concat lines (num_threads self) Hn) as (chunks & Hs & _).
        now rewrite (run_spec lower as_completed env self lines chunks Hperm Hne Er Hn Hs).
    + unfold process_file_in_chunks, _validate_service_name, load_file.
      rewrite Ep, Er. destruct e; reflexivity.
Qed.

Lemma run_outcome_table_witness :
  outcome (process_file_in_chunks ascii_lower (@rev _) faulty_env file_searcher) =
  if py_not (service_name file_searcher) then Raise (SystemExit 1)
  else
    match readlines faulty_env (input_file file_searcher) with
    | Raise FileNotFoundError | Raise OSError => Raise (SystemExit 1)
    | Raise e => Raise e
    | Return lines =>
        if (num_threads file_searcher =? 0)%Z then Raise ZeroDivisionError
        else if (num_threads file_searcher <? 0)%Z then Raise ValueError
        else Return tt
    end.
Proof.
  apply (run_outcome_table ascii_lower (@rev _) faulty_env file_searcher).
  intros rs. apply Permutation_sym, Permutation_rev.
Defined.

Lemma no_total_in_failed_run (evs : list event) :
  Forall (fun x => forall t g, x <> Log Searcher INFO (TotalMatches t g)) evs ->
  ~ reports_total evs.
Proof.
  intros H (t & g & Hin). rewrite Forall_forall in H. exact (H _ Hin t g eq_refl).
Qed.

(** X14: the exit status tells whether a total was logged: the process ends
    with status 0 exactly when the main thread has logged the record of
    the total (the reading of the input raising no [SystemExit] of its
    own). *)
Theorem exit_zero_iff_total_logged (lower : str -> str)
    (as_completed : list (result nat) -> list (result nat))
    (env : environment) (self : SuricataRuleSearcher) :
  (forall rs, Permutation (as_completed rs) rs) ->
  (forall code, readlines env (input_file self) <> Raise (SystemExit code)) ->
  fst (main lower as_completed env self) = 0%Z <->
  reports_total (main_thread (snd (main lower as_completed env self))).
Proof.
  intros Hperm Hexit.
  assert (Hfail : forall evs : list event,
             Forall (fun x => forall t g, x <> Log Searcher INFO (TotalMatches t g)) evs ->
             (1%Z = 0%Z <-> reports_total evs)).
  { intros evs H. split; [discriminate|].
    intros R. exfalso. exact (no_total_in_failed_run evs H R). }
  destruct (py_not (service_name self)) eqn:Ep.
  - unfold main, process_file_in_chunks, _validate_service_name. rewrite Ep.
    cbn [fst snd negb outcome main_thread]. apply Hfail.
    repeat constructor; discriminate.
  - assert (Hne : service_name self <> []) by (intros E; rewrite E in Ep; discriminate).
    destruct (readlines env (input_file self)) as [lines|e] eqn:Er.
    + destruct (Z.leb_spec (num_threads self) 0) as [Hle|Hgt].
      * unfold main, process_file_in_chunks, _validate_service_name, load_file,
          _split_lines_evenly, range.
        rewrite Ep, Er. cbn [fst snd negb emit].
        destruct (Z.eqb_spec (num_threads self) 0).
        -- cbn [fst snd outcome main_thread]. apply Hfail.
           repeat constructor; discriminate.
        -- destruct (Z.leb_spec (num_threads self) 0); [|lia].
           cbn [fst snd outcome main_thread]. apply Hfail.
           repeat constructor; discriminate.
      * assert (Hn : (1 <= num_threads self)%Z) by lia.
        destruct (split_concat lines (num_threads self) Hn) as (chunks & Hs & _).
        unfold main.
        rewrite (run_spec lower as_completed env self lines chunks Hperm Hne Er Hn Hs).
        cbn [fst snd outcome main_thread]. split; [intros _|reflexivity].
        eexists _, _. apply in_or_app. right. apply in_or_app. right. now left.
    + unfold main, process_file_in_chunks, _validate_service_name, load_file.
      rewrite Ep, Er.
      destruct e; try (exfalso; exact (Hexit _ eq_refl));
        cbn [fst snd negb emit outcome main_thread app]; apply Hfail;
        repeat constructor; discriminate.
Qed.

Lemma exit_zero_iff_total_logged_witness :
  fst (main ascii_lower (@rev _) faulty_env file_searcher) = 0%Z <->
  reports_total (main_thread (snd (main ascii_lower (@rev _) faulty_env file_searcher))).
Proof.
  apply (exit_zero_iff_total_logged ascii_lower (@rev _) faulty_env file_searcher).
  - intros rs. apply Permutation_sym, Permutation_rev.
  - intros code. discriminate.
Defined.

(** ** The logger *)

Lemma str_eqb_refl s : str_eqb s s = true.
Proof. induction s as [|c s IH]; [reflexivity|]. cbn. now rewrite N.eqb_refl. Qed.

Lemma find_store name l d : Logging.find name (Logging.store name l d) = Some l.
Proof.
  induction d as [|(k, w) d IH]; cbn.
  - now rewrite str_eqb_refl.
  - destruct (str_eqb k name) eqn:E; cbn; rewrite E; [reflexivity | exact IH].
Qed.

Lemma get_set r l st : Logging.get r (Logging.set r l st) = l.
Proof. destruct r; cbn; [reflexivity | now rewrite find_store]. Qed.

Lemma root_set_named name l st :
  Logging.root (Logging.set (Logging.Named name) l st) = Logging.root st.
Proof. reflexivity. Qed.

Lemma hasHandlers_setLevel r level st :
  Logging.hasHandlers r (Logging.setLevel r level st) = Logging.hasHandlers r st.
Proof.
  unfold Logging.hasHandlers, Logging.setLevel. rewrite get_set. cbn.
  destruct r; reflexivity.
Qed.

Lemma hasHandlers_addHandler r h st :
  Logging.hasHandlers r (Logging.addHandler r h st) = true.
Proof.
  unfold Logging.hasHandlers, Logging.addHandler. rewrite get_set. cbn.
  now destruct (Logging.handlers (Logging.get r st)).
Qed.

Lemma getLogger_again name st r st' :
  Logging.getLogger name st = (r, st') ->
  forall st'', (match r with
                | Logging.RootLogger => True
                | Logging.Named n =>
                    exists l, Logging.find n (Logging.loggerDict st'') = Some l
                end) ->
               Logging.getLogger name st'' = (r, st'').
Proof.
  unfold Logging.getLogger.
  destruct (py_not name || str_eqb name (of_string "root")).
  - intros [= <- <-] st'' _. reflexivity.
  - intros [= <- <-] st'' (l & ->). reflexivity.
Qed.

Lemma find_after_set name l st :
  exists l', Logging.find name (Logging.loggerDict (Logging.set (Logging.Named name) l st)) =
             Some l'.
Proof. exists l. cbn. apply find_store. Qed.

(** X15: [LoggerManager] adds its handler at most once.  After a construction
    the logger has a handler within reach; a second construction for the
    same name adds none and changes nothing but the level. *)
Theorem logger_manager_adds_no_second_handler (name : str) (level1 level2 : Z)
    (st : Logging.state) :
  Logging.hasHandlers (get_logger (LoggerManager name level1 st))
    (snd (LoggerManager name level1 st)) = true /\
  LoggerManager name level2 (snd (LoggerManager name level1 st)) =
  (get_logger (LoggerManager name level1 st),
   Logging.setLevel (get_logger (LoggerManager name level1 st)) level2
     (snd (LoggerManager name level1 st))).
Proof.
  unfold get_logger.
  destruct (Logging.getLogger name st) as (r, st0) eqn:Eg.
  assert (Hhas : Logging.hasHandlers (fst (LoggerManager name level1 st))
                   (snd (LoggerManager name level1 st)) = true).
  { unfold LoggerManager. rewrite Eg. cbn [fst snd].
    destruct (Logging.hasHandlers r (Logging.setLevel r level1 st0)) eqn:Eh; cbn [negb fst snd].
    - exact Eh.
    - apply hasHandlers_addHandler. }
  split; [exact Hhas|].
  assert (Hr : fst (LoggerManager name level1 st) = r).
  { unfold LoggerManager. rewrite Eg. cbn [fst snd].
    now destruct (negb (Logging.hasHandlers r (Logging.setLevel r level1 st0))). }
  rewrite Hr in *.
  assert (Hagain : Logging.getLogger name (snd (LoggerManager name level1 st)) =
                   (r, snd (LoggerManager name level1 st))).
  { apply (getLogger_again name st r st0 Eg).
    destruct r as [|n]; [exact I|].
    unfold LoggerManager. rewrite Eg. cbn [fst snd].
    destruct (negb (Logging.hasHandlers (Logging.Named n)
                      (Logging.setLevel (Logging.Named n) level1 st0)));
      cbn [snd]; apply find_after_set. }
  unfold LoggerManager at 1. rewrite Hagain. cbn [fst snd].
  now rewrite hasHandlers_setLevel, Hhas.
Qed.

Lemma log_at_start lv m :
  Logging.log self_logger lv m at_start =
  [Logging.Emitted Logging.ClassFormat self_logger lv m].
Proof. destruct lv; reflexivity. Qed.

Lemma log_configured lv m :
  Logging.log self_logger lv m configured =
  [Logging.Emitted Logging.ClassFormat self_logger lv m;
   Logging.Emitted Logging.BASIC_FORMAT self_logger lv m].
Proof. destruct lv; reflexivity. Qed.

Lemma module_error_at_start m :
  Logging.module_log ERROR m at_start =
  (configured, [Logging.Emitted Logging.BASIC_FORMAT Logging.RootLogger ERROR m]).
Proof. reflexivity. Qed.

Lemma module_error_configured m :
  Logging.module_log ERROR m configured =
  (configured, [Logging.Emitted Logging.BASIC_FORMAT Logging.RootLogger ERROR m]).
Proof. reflexivity. Qed.

Lemma console_app r st a b :
  console r st (a ++ b) =
  (fst (console r (fst (console r st a)) b),
   snd (console r st a) ++ snd (console r (fst (console r st a)) b)).
Proof.
  revert st. induction a as [|e a IH]; intros st.
  - cbn [app console fst snd]. now destruct (console r st b).
  - cbn [app console]. destruct e as [[|] lv m| | | |]; try apply IH.
    + rewrite IH. cbn [fst snd]. now rewrite app_assoc.
    + rewrite IH. cbn [fst snd]. now rewrite app_assoc.
Qed.

Lemma console_errors_configured es :
  console self_logger configured (thread_errors es) =
  (configured,
   map (fun e => Logging.Emitted Logging.BASIC_FORMAT Logging.RootLogger ERROR
                   (ErrorInThread e)) es).
Proof.
  induction es as [|e es IH]; [reflexivity|].
  cbn [thread_errors map console]. rewrite module_error_configured. cbn [fst snd].
  fold (thread_errors es). rewrite IH. reflexivity.
Qed.

Lemma console_errors_at_start es :
  console self_logger at_start (thread_errors es) =
  (match es with [] => at_start | _ :: _ => configured end,
   map (fun e => Logging.Emitted Logging.BASIC_FORMAT Logging.RootLogger ERROR
                   (ErrorInThread e)) es).
Proof.
  destruct es as [|e es]; [reflexivity|].
  cbn [thread_errors map console]. rewrite module_error_at_start. cbn [fst snd].
  fold (thread_errors es). rewrite console_errors_configured. reflexivity.
Qed.

(** X16: what the main thread of a completed run puts on standard error, in a
    process that has not configured logging otherwise.  The start record
    is printed once, in the format of the class logger.  The first error of
    a task makes [logging.error] give the root logger a handler of its own;
    each task error is printed once, by that handler.  From then on the
    records of the class logger reach both handlers: after a task error
    the final total is printed twice, once in each format. *)
Theorem total_is_printed_twice_after_task_error (lower : str -> str)
    (as_completed : list (result nat) -> list (result nat))
    (env : environment) (self : SuricataRuleSearcher) (lines : list str) :
  (forall rs, Permutation (as_completed rs) rs) ->
  service_name self <> [] ->
  readlines env (input_file self) = Return lines ->
  (1 <= num_threads self)%Z ->
  exists chunks total,
    _split_lines_evenly lines (num_threads self) = Return chunks /\
    snd (console self_logger at_start
           (main_thread (process_file_in_chunks lower as_completed env self))) =
    Logging.Emitted Logging.ClassFormat self_logger INFO
      (Starting (service_name self) (input_file self) (num_threads self)) ::
    map (fun e => Logging.Emitted Logging.BASIC_FORMAT Logging.RootLogger ERROR
                    (ErrorInThread e))
      (raised (as_completed (map fst (work_futures lower env self chunks)))) ++
    Logging.Emitted Logging.ClassFormat self_logger INFO
      (TotalMatches total (service_name self)) ::
    match raised (map fst (work_futures lower env self chunks)) with
    | [] => []
    | _ :: _ =>
        [Logging.Emitted Logging.BASIC_FORMAT self_logger INFO
           (TotalMatches total (service_name self))]
    end.
Proof.
  intros Hperm Hne Hread Hn.
  destruct (split_concat lines (num_threads self) Hn) as (chunks & Hs & _).
  exists chunks, (list_sum (map count_of (map fst (work_futures lower env self chunks)))).
  split; [assumption|].
  rewrite (run_spec lower as_completed env self lines chunks Hperm Hne Hread Hn Hs).
  cbn [main_thread app console]. rewrite log_at_start. cbn [fst snd app]. f_equal.
  rewrite console_app, console_errors_at_start. cbn [fst snd]. f_equal.
  pose proof (raised_perm _ _ (Hperm (map fst (work_futures lower env self chunks)))) as Hp.
  destruct (raised (as_completed (map fst (work_futures lower env self chunks))))
    as [|e es] eqn:Ea.
  - apply Permutation_nil in Hp. rewrite Hp. cbn [console].
    rewrite log_at_start. reflexivity.
  - destruct (raised (map fst (work_futures lower env self chunks))) as [|e' es'].
    + apply Permutation_sym, Permutation_nil in Hp. discriminate.
    + cbn [console]. rewrite log_configured. reflexivity.
Qed.

Lemma total_is_printed_twice_after_task_error_witness :
  exists chunks total,
    _split_lines_evenly demo_lines (num_threads file_searcher) = Return chunks /\
    snd (console self_logger at_start
           (main_thread (process_file_in_chunks ascii_lower (@rev _) faulty_env
                           file_searcher))) =
    Logging.Emitted Logging.ClassFormat self_logger INFO
      (Starting (service_name file_searcher) (input_file file_searcher)
         (num_threads file_searcher)) ::
    map (fun e => Logging.Emitted Logging.BASIC_FORMAT Logging.RootLogger ERROR
                    (ErrorInThread e))
      (raised (rev (map fst (work_futures ascii_lower faulty_env file_searcher chunks)))) ++
    Logging.Emitted Logging.ClassFormat self_logger INFO
      (TotalMatches total (service_name file_searcher)) ::
    match raised (map fst (work_futures ascii_lower faulty_env file_searcher chunks)) with
    | [] => []
    | _ :: _ =>
        [Logging.Emitted Logging.BASIC_FORMAT self_logger INFO
           (TotalMatches total (service_name file_searcher))]
    end.
Proof.
  apply (total_is_printed_twice_after_task_error ascii_lower (@rev _) faulty_env
           file_searcher demo_lines).
  - intros rs. apply Permutation_sym, Permutation_rev.
  - discriminate.
  - reflexivity.
  - cbn. lia.
Defined.

(** The standard error of the run in which the first task cannot open
    the output file. *)
Example faulty_run_console :
  snd (console self_logger at_start
         (main_thread (snd (main ascii_lower (@rev _) faulty_env file_searcher)))) =
  [Logging.Emitted Logging.ClassFormat self_logger INFO
     (Starting (of_string "service") (of_string "rules") 2);
   Logging.Emitted Logging.BASIC_FORMAT Logging.RootLogger ERROR (ErrorInThread OSError);
   Logging.Emitted Logging.ClassFormat self_logger INFO
     (TotalMatches 1 (of_string "service"));
   Logging.Emitted Logging.BASIC_FORMAT self_logger INFO
     (TotalMatches 1 (of_string "service"))].
Proof. vm_compute. reflexivity. Qed.

(** ** Runs whose tasks fail, and the order of completion *)

Lemma raised_repeat e k : raised (repeat (Raise e) k) = repeat e k.
Proof. induction k as [|k IH]; [reflexivity|]. cbn [repeat raised]. now rewrite IH. Qed.

Lemma sum_repeat_zero k : list_sum (repeat 0 k) = 0.
Proof. induction k as [|k IH]; [reflexivity | exact IH]. Qed.

(** X17: An output file that cannot be opened does not make the run fail: each
    task raises before it scans a line, the error of each is logged, the
    total is 0 whatever the input holds, and the process still ends with
    exit status 0. *)
Theorem unwritable_output_still_exits_zero (lower : str -> str)
    (as_completed : list (result nat) -> list (result nat))
    (env : environment) (self : SuricataRuleSearcher) (lines : list str) (path : str) :
  (forall rs, Permutation (as_completed rs) rs) ->
  service_name self <> [] ->
  readlines env (input_file self) = Return lines ->
  (1 <= num_threads self)%Z ->
  output_file self = Some path -> path <> [] ->
  (forall i, open_ok (task_io env i) = false) ->
  main lower as_completed env self =
  (0%Z,
   {| outcome := Return tt;
      main_thread :=
        [Log Searcher INFO
           (Starting (service_name self) (input_file self) (num_threads self));
         ReadLines (input_file self)] ++
        repeat (Log Root ERROR (ErrorInThread OSError))
          (Nat.min (length lines) (Z.to_nat (num_threads self))) ++
        [Log Searcher INFO (TotalMatches 0 (service_name self))];
      tasks := repeat [] (Nat.min (length lines) (Z.to_nat (num_threads self))) |}).
Proof.
  intros Hperm Hne Hread Hn Hout Hpath Hopen.
  destruct (split_concat lines (num_threads self) Hn) as (chunks & Hs & _).
  unfold main.
  rewrite (run_spec lower as_completed env self lines chunks Hperm Hne Hread Hn Hs).
  cbn [outcome].
  assert (Hwf : work_futures lower env self chunks =
                repeat (Raise OSError, [])
                  (Nat.min (length lines) (Z.to_nat (num_threads self)))).
  { unfold work_futures.
    rewrite (map_constant _ (Raise OSError, [])).
    - rewrite length_combine, length_seq, Nat.min_id.
      now rewrite (nonempty_chunks_count lines (num_threads self) chunks Hn Hs).
    - intros ic _. unfold _search_for_service_in_chunk, no_output_file.
      now rewrite Hout, (py_not_false _ Hpath), Hopen. }
  rewrite Hwf, !map_repeat. cbn [fst snd count_of].
  rewrite (Permutation_repeat _ _ (Hperm _)), raised_repeat, sum_repeat_zero.
  unfold thread_errors. rewrite map_repeat. reflexivity.
Qed.

Lemma unwritable_output_still_exits_zero_witness :
  main ascii_lower (@rev _)
    {| readlines := fun _ => Return demo_lines; task_io := fun _ => locked_io |}
    file_searcher =
  (0%Z,
   {| outcome := Return tt;
      main_thread :=
        [Log Searcher INFO
           (Starting (service_name file_searcher) (input_file file_searcher)
              (num_threads file_searcher));
         ReadLines (input_file file_searcher)] ++
        repeat (Log Root ERROR (ErrorInThread OSError))
          (Nat.min (length demo_lines) (Z.to_nat (num_threads file_searcher))) ++
        [Log Searcher INFO (TotalMatches 0 (service_name file_searcher))];
      tasks := repeat [] (Nat.min (length demo_lines) (Z.to_nat (num_threads file_searcher))) |}).
Proof.
  apply (unwritable_output_still_exits_zero ascii_lower (@rev _)
           {| readlines := fun _ => Return demo_lines; task_io := fun _ => locked_io |}
           file_searcher demo_lines (of_string "out")).
  - intros rs. apply Permutation_sym, Permutation_rev.
  - discriminate.
  - reflexivity.
  - cbn. lia.
  - reflexivity.
  - discriminate.
  - reflexivity.
Defined.

(** A run either ends before it collects any result, in a way that does
    not depend on the order of completion, or it is a scan with a service
    name, a readable input and a positive number of threads. *)
Lemma run_early_or_scan lower env self :
  (forall ac1 ac2,
     process_file_in_chunks lower ac1 env self =
     process_file_in_chunks lower ac2 env self) \/
  (service_name self <> [] /\
   (exists lines, readlines env (input_file self) = Return lines) /\
   (1 <= num_threads self)%Z).
Proof.
  destruct (py_not (service_name self)) eqn:Ep.
  - left. intros ac1 ac2.
    unfold process_file_in_chunks, _validate_service_name. now rewrite Ep.
  - assert (Hne : service_name self <> []) by (intros E; rewrite E in Ep; discriminate).
    destruct (readlines env (input_file self)) as [lines|e] eqn:Er.
    + destruct (Z.leb_spec (num_threads self) 0) as [Hle|Hgt].
      * left. intros ac1 ac2.
        unfold process_file_in_chunks, _validate_service_name, load_file.
        rewrite Ep, Er. cbn [fst snd negb emit].
        destruct (_split_lines_evenly lines (num_threads self)); [|reflexivity].
        destruct (Z.leb_spec (num_threads self) 0); [reflexivity | lia].
      * right. split; [assumption|]. split; [now exists lines | lia].
    + left. intros ac1 ac2.
      unfold process_file_in_chunks, _validate_service_name, load_file.
      rewrite Ep, Er. destruct e; reflexivity.
Qed.

(** X18: the order in which the tasks complete changes nothing of a run but
    the order of the error records of failed tasks: two runs that differ
    only in that order end in the same way, have the same tasks with the
    same events, and log the same records (so the same total), the error
    records of the tasks being a permutation of each other. *)
Theorem completion_order_only_reorders_errors (lower : str -> str)
    (ac1 ac2 : list (result nat) -> list (result nat))
    (env : environment) (self : SuricataRuleSearcher) :
  (forall rs, Permutation (ac1 rs) rs) ->
  (forall rs, Permutation (ac2 rs) rs) ->
  outcome (process_file_in_chunks lower ac1 env self) =
    outcome (process_file_in_chunks lower ac2 env self) /\
  tasks (process_file_in_chunks lower ac1 env self) =
    tasks (process_file_in_chunks lower ac2 env self) /\
  exists before errors1 errors2 after,
    main_thread (process_file_in_chunks lower ac1 env self) =
      before ++ thread_errors errors1 ++ after /\
    main_thread (process_file_in_chunks lower ac2 env self) =
      before ++ thread_errors errors2 ++ after /\
    Permutation errors1 errors2.
Proof.
  intros H1 H2.
  destruct (run_early_or_scan lower env self) as [Hsame | (Hne & (lines & Hread) & Hn)].
  - rewrite (Hsame ac1 ac2). repeat split.
    exists (main_thread (process_file_in_chunks lower ac2 env self)), [], [], [].
    cbn [thread_errors map app]. rewrite app_nil_r. repeat split. constructor.
  - destruct (split_concat lines (num_threads self) Hn) as (chunks & Hs & _).
    rewrite (run_spec lower ac1 env self lines chunks H1 Hne Hread Hn Hs).
    rewrite (run_spec lower ac2 env self lines chunks H2 Hne Hread Hn Hs).
    cbn [outcome tasks main_thread]. repeat split.
    eexists _, _, _, _. split; [reflexivity|]. split; [reflexivity|].
    transitivity (raised (map fst (work_futures lower env self chunks))).
    + apply raised_perm, H1.
    + apply Permutation_sym, raised_perm, H2.
Qed.

Lemma completion_order_only_reorders_errors_witness :
  outcome (process_file_in_chunks ascii_lower (@rev _) faulty_env file_searcher) =
    outcome (process_file_in_chunks ascii_lower (fun rs => rs) faulty_env file_searcher) /\
  tasks (process_file_in_chunks ascii_lower (@rev _) faulty_env file_searcher) =
    tasks (process_file_in_chunks ascii_lower (fun rs => rs) faulty_env file_searcher) /\
  exists before errors1 errors2 after,
    main_thread (process_file_in_chunks ascii_lower (@rev _) faulty_env file_searcher) =
      before ++ thread_errors errors1 ++ after /\
    main_thread (process_file_in_chunks ascii_lower (fun rs => rs) faulty_env file_searcher) =
      before ++ thread_errors errors2 ++ after /\
    Permutation errors1 errors2.
Proof.
  apply (completion_order_only_reorders_errors ascii_lower (@rev _) (fun rs => rs)
           faulty_env file_searcher).
  - intros rs. apply Permutation_sym, Permutation_rev.
  - intros rs. apply Permutation_refl.
Defined.

(** ** The extractor on a well-formed rule *)

Lemma msg_token_has_no_quote tok : is_msg_token tok -> ~ In dq tok.
Proof.
  intros H. change (of_string "msg:") with [109; 115; 103; 58]%N in H.
  inversion H as [|? c1 ? t1 E1 H1]; subst.
  inversion H1 as [|? c2 ? t2 E2 H2]; subst.
  inversion H2 as [|? c3 ? t3 E3 H3]; subst.
  inversion H3 as [|? c4 ? t4 E4 H4]; subst.
  inversion H4; subst.
  intros [->|[->|[->|[->|[]]]]];
    [vm_compute in E1 | vm_compute in E2 | vm_compute in E3 | vm_compute in E4];
    discriminate.
Qed.

Lemma quote_in_prefix (a rest : str) (k : nat) :
  length a < k -> In dq (firstn k (a ++ dq :: rest)).
Proof.
  intros Hk. rewrite firstn_app.
  apply in_or_app. right.
  replace (k - length a) with (S (k - length a - 1)) by lia.
  cbn [firstn]. now left.
Qed.

(** X19: on a line with no double quote before its msg field, the field name in
    any case, the extractor returns the text of the field as it is, when
    that text is not empty and holds no double quote: what is read back is
    what the rule carries. *)
Theorem extract_returns_the_field (pre tok msg post : str) :
  ~ In dq pre ->
  is_msg_token tok ->
  msg <> [] -> ~ In dq msg ->
  extract (pre ++ tok ++ quoted msg ++ post) = Some msg.
Proof.
  intros Hpre Htok Hne Hmsg.
  set (line := pre ++ tok ++ quoted msg ++ post).
  assert (Hocc : filled_occurrence line (length pre) msg).
  { split; [|assumption]. now exists pre, tok, post. }
  rewrite extract_first_field.
  destruct (first_field line) as [c|] eqn:E.
  - apply first_field_some in E. destruct E as (i & Hi & Hlt).
    apply filled_occurrence_field_at in Hi.
    destruct (Nat.lt_trichotomy i (length pre)) as [Hlt'|[->|Hgt]].
    + exfalso. destruct Hi as ((p & t & q & Ep & Lp & Tt & _) & _).
      pose proof (is_msg_token_length _ Tt) as Lt.
      pose proof (is_msg_token_length _ Htok) as Ltok.
      assert (Hin : In dq (firstn (length pre + 4) line)).
      { rewrite Ep. unfold quoted. cbn [app].
        replace (p ++ t ++ dq :: (c ++ [dq]) ++ q)
          with ((p ++ t) ++ dq :: (c ++ [dq]) ++ q) by now rewrite <- app_assoc.
        apply (quote_in_prefix (p ++ t)). rewrite length_app. lia. }
      unfold line in Hin. rewrite app_assoc, firstn_app in Hin.
      replace (length pre + 4 - length (pre ++ tok)) with 0 in Hin
        by (rewrite length_app; lia).
      cbn [firstn] in Hin. rewrite app_nil_r in Hin.
      rewrite firstn_all2 in Hin by (rewrite length_app; lia).
      apply in_app_or in Hin.
      destruct Hin as [Hin|Hin]; [exact (Hpre Hin) | exact (msg_token_has_no_quote _ Htok Hin)].
    + f_equal. destruct Hi as (Hi & _). destruct Hocc as (Hocc & _).
      exact (occurrence_unique _ _ _ _ Hi Hocc).
    + apply filled_occurrence_field_at in Hocc. rewrite (Hlt _ Hgt) in Hocc. discriminate.
  - apply filled_occurrence_field_at in Hocc.
    rewrite (first_field_none _ E) in Hocc. discriminate.
Qed.

Lemma extract_returns_the_field_witness :
  extract (of_string "alert tcp any any -> any any (" ++ of_string "MSG:" ++
           quoted (of_string "ET POLICY SSH Service") ++ of_string ";)") =
  Some (of_string "ET POLICY SSH Service").
Proof.
  apply (extract_returns_the_field (of_string "alert tcp any any -> any any (")
           (of_string "MSG:") (of_string "ET POLICY SSH Service") (of_string ";)")).
  - vm_compute. intuition discriminate.
  - repeat constructor.
  - discriminate.
  - vm_compute. intuition discriminate.
Defined.
